(** * secure-group-chat-frontend: the real-time core of the chat client

    A shallow embedding of the message codec ([src/util/encrypt.ts]), the
    chat view's event handlers ([src/pages/Chat.tsx]), the signed-URL hook
    ([src/hooks/useSignedURLs]) and the group wrapper of [App.tsx], followed
    by the properties the specification states about them.

    Conventions.  A JavaScript string that is only compared or used as a key
    (ids, user names, group ids, media references) is a [string].  Message
    text, which is trimmed, tagged and fed to the cipher, is a list of UTF-16
    code units ([list N]).  A handler is a function from the component state
    to the new state and the list of effects it performs, in program order. *)

From Stdlib Require Import ZArith NArith Lia Ascii String.
From stdpp Require Import gmap strings list fin_maps.

Local Open Scope N_scope.

(* ===================================================================== *)
(** ** JavaScript strings *)
(* ===================================================================== *)

Module Js.

(** The code units of an ASCII literal. *)
Definition lit (s : string) : list N :=
  map Ascii.N_of_ascii (String.list_ascii_of_string s).

(** [WhiteSpace] and [LineTerminator] of ECMAScript, the characters
    [String.prototype.trim] removes. *)
Definition is_whitespace (c : N) : bool :=
  (c =? 0x09) || (c =? 0x0A) || (c =? 0x0B) || (c =? 0x0C) || (c =? 0x0D)
  || (c =? 0x20) || (c =? 0xA0) || (c =? 0x1680)
  || ((0x2000 <=? c) && (c <=? 0x200A))
  || (c =? 0x2028) || (c =? 0x2029) || (c =? 0x202F) || (c =? 0x205F)
  || (c =? 0x3000) || (c =? 0xFEFF).

Fixpoint trimStart (s : list N) : list N :=
  match s with
  | c :: r => if is_whitespace c then trimStart r else s
  | [] => []
  end.

Definition trimEnd (s : list N) : list N := rev (trimStart (rev s)).

(** [s.trim()] *)
Definition trim (s : list N) : list N := trimEnd (trimStart s).

(** Truthiness of a string value: every string but the empty one. *)
Definition truthy (s : list N) : bool :=
  match s with [] => false | _ :: _ => true end.

(** [s.startsWith(p)] *)
Fixpoint startsWith (p s : list N) : bool :=
  match p, s with
  | [], _ => true
  | a :: p', b :: s' => (a =? b) && startsWith p' s'
  | _ :: _, [] => false
  end.

(** [s.slice(n)] for [0 <= n] *)
Definition slice (n : nat) (s : list N) : list N := drop n s.

(** A string is blank when it is empty or holds white space only. *)
Definition blank (s : list N) : bool := forallb is_whitespace s.

Definition is_high_surrogate (c : N) : bool := (0xD800 <=? c) && (c <=? 0xDBFF).
Definition is_low_surrogate (c : N) : bool := (0xDC00 <=? c) && (c <=? 0xDFFF).

(** Well-formed UTF-16: code units below 2^16, every surrogate paired.
    These are the texts that have a UTF-8 encoding, the encoding in which
    the cipher library reads and writes text. *)
Fixpoint well_formed (s : list N) : bool :=
  match s with
  | [] => true
  | c :: r =>
      if is_high_surrogate c then
        match r with
        | d :: r' => is_low_surrogate d && well_formed r'
        | [] => false
        end
      else (c <? 0x10000) && negb (is_low_surrogate c) && well_formed r
  end.

(** Truthiness of a key-like string. *)
Definition nonempty (s : string) : bool :=
  match s with EmptyString => false | String _ _ => true end.

(** [s.split(sep)] for a one-character separator. *)
Fixpoint split_on (sep : Ascii.ascii) (s : string) : list string :=
  match s with
  | EmptyString => [EmptyString]
  | String c r =>
      if Ascii.eqb c sep then EmptyString :: split_on sep r
      else match split_on sep r with
           | h :: t => String c h :: t
           | [] => [String c EmptyString]
           end
  end.

(** [parts.join(sep)] *)
Fixpoint join (sep : string) (parts : list string) : string :=
  match parts with
  | [] => EmptyString
  | [p] => p
  | p :: rest => String.append p (String.append sep (join sep rest))
  end.

End Js.

(* ===================================================================== *)
(** ** The message codec: [src/util/encrypt.ts] *)
(* ===================================================================== *)

Module Codec.

(** The outcome of a JavaScript expression that may throw. *)
Inductive result (A : Type) : Type :=
| Ok (a : A)
| Throw (reason : string).
Arguments Ok {A} a.
Arguments Throw {A} reason.

Definition bind {A B} (r : result A) (k : A -> result B) : result B :=
  match r with
  | Ok a => k a
  | Throw e => Throw e
  end.

Notation "x <- r ;; k" := (bind r (fun x => k))
  (at level 100, r at next level, right associativity).

(** [try { body } catch (err) { handler }] *)
Definition try_catch {A} (body : result A) (handler : string -> A) : A :=
  match body with
  | Ok a => a
  | Throw e => handler e
  end.

(** The part of the [crypto-js] library the codec calls.  The library is
    not part of the repository; it is an interface here.
    - [AES_encrypt salt text key] is [CryptoJS.AES.encrypt(text, key).toString()];
      the library draws a random salt for every call, which is an argument
      here, and it throws on a text it cannot encode;
    - [AES_decrypt cipher key] is [CryptoJS.AES.decrypt(cipher, key)];
    - [Utf8_stringify bytes] is [bytes.toString(CryptoJS.enc.Utf8)], which
      throws on malformed UTF-8 data. *)
Class CryptoJS : Type := {
  WordArray : Type;
  AES_encrypt : N -> list N -> list N -> result (list N);
  AES_decrypt : list N -> list N -> result WordArray;
  Utf8_stringify : WordArray -> result (list N)
}.

(** What the library documents: a text that has a UTF-8 encoding is
    encrypted without error, and decrypting the outcome with the same key
    gives the bytes of that text. *)
Definition lawful (C : CryptoJS) : Prop :=
  forall salt x key,
    Js.well_formed x = true ->
    exists c w,
      AES_encrypt salt x key = Ok c /\
      AES_decrypt c key = Ok w /\
      Utf8_stringify w = Ok x.

Definition AES_KEY : list N := Js.lit "0F7D51C8976E46ED".
Definition ENC : list N := Js.lit "ENC:".

Section WithLibrary.
Context {C : CryptoJS}.

(** [encryptMessage(text)] *)
Definition encryptMessage (salt : N) (text : list N) : result (list N) :=
  ciphertext <- AES_encrypt salt text AES_KEY ;;
  Ok (ENC ++ ciphertext).

(** The body of the [try] block of [decryptMessage]. *)
Definition decryptMessage_try (cipher : list N) : result (list N) :=
  if negb (Js.startsWith ENC cipher) then Ok cipher
  else
    let encryptedPart := Js.slice 4 cipher in
    bytes <- AES_decrypt encryptedPart AES_KEY ;;
    plaintext <- Utf8_stringify bytes ;;
    if negb (Js.truthy plaintext) then Throw "Failed to decrypt"
    else Ok plaintext.

(** [decryptMessage(cipher)]: the [catch] clause logs a warning and
    returns the argument. *)
Definition decryptMessage (cipher : list N) : list N :=
  try_catch (decryptMessage_try cipher) (fun _ => cipher).

End WithLibrary.

(** A stand-in for the library, on which the codec can be evaluated: it
    reverses the text (the salt and the key are ignored).  It is lawful. *)
Definition mirror : CryptoJS := {|
  WordArray := list N;
  AES_encrypt := fun _ text _ =>
    if Js.well_formed text then Ok (rev text) else Throw "URI malformed";
  AES_decrypt := fun cipher _ => Ok (rev cipher);
  Utf8_stringify := fun bytes =>
    if Js.well_formed bytes then Ok bytes else Throw "Malformed UTF-8 data"
|}.

End Codec.

(* ===================================================================== *)
(** ** The chat view: [src/pages/Chat.tsx] *)
(* ===================================================================== *)

Module User.
(** [interface User] *)
Record t : Type := { id : string; name : string; email : string }.
End User.

Module Message.
(** [interface Message], with the [groupId] the channel adds.  A field
    marked [?] in the source, and [user], which the handlers test before
    they use it, are options. *)
Record t : Type := {
  id : string;
  user : option User.t;
  text : list N;
  time : string;
  mediaUrl : option string;
  mediaType : option string;
  readBy : option (list string);
  groupId : option string
}.

Definition with_text (m : t) (x : list N) : t :=
  {| id := id m; user := user m; text := x; time := time m;
     mediaUrl := mediaUrl m; mediaType := mediaType m;
     readBy := readBy m; groupId := groupId m |}.

Definition with_readBy (m : t) (r : list string) : t :=
  {| id := id m; user := user m; text := text m; time := time m;
     mediaUrl := mediaUrl m; mediaType := mediaType m;
     readBy := Some r; groupId := groupId m |}.
End Message.

Module Chat.
Import Codec.

(** The file picked in the input, as far as the view looks at it. *)
Record File : Type := { file_name : string; file_type : string }.

(** [ChatProps]: [group_id] is [group._id]. *)
Record Props : Type := { group_id : string; user : User.t; token : string }.

(** The [useState] cells of the component.  [processedMessages] is one
    [Set] object for the life of the instance, mutated in place. *)
Record State : Type := {
  messages : list Message.t;
  newMessage : list N;
  typingUser : string;
  file : option File;
  processedMessages : gset string;
  smartReplies : list (list N)
}.

(** [useState] initial values. *)
Definition initial : State :=
  {| messages := []; newMessage := []; typingUser := ""; file := None;
     processedMessages := ∅; smartReplies := [] |}.

(** What a handler does to the outside, in program order. *)
Inductive Effect : Type :=
| EmitChatMessage (m : Message.t)
| EmitReadReceipt (messageId user groupId : string)
| EmitUserTyping (user groupId : string)
| SocketConnect
| ConsoleError (what : string)
| UploadMedia (f : File)
| FetchSmartReplies (messageText : list N)
| SetTimeout (delay : Z)
| ScrollToBottom.

(** [user?.name || 'anonymous'] *)
Definition currentUser (P : Props) : string :=
  if Js.nonempty (User.name (user P)) then User.name (user P) else "anonymous".

(** [arr?.includes(x)], [undefined] counting as false. *)
Definition includes (arr : option (list string)) (x : string) : bool :=
  match arr with
  | Some l => bool_decide (x ∈ l)
  | None => false
  end.

Section Handlers.
Context {C : CryptoJS}.
Variable P : Props.

(** [socket.on("chat message", ...)], up to its [await]. *)
Definition on_chat_message (st : State) (msg : Message.t) : State * list Effect :=
  if bool_decide (Message.groupId msg = Some (group_id P))
     && negb (bool_decide (Message.id msg ∈ processedMessages st))
  then
    let decryptedText := decryptMessage (Message.text msg) in
    ({| messages := messages st ++ [Message.with_text msg decryptedText];
        newMessage := newMessage st;
        typingUser := typingUser st;
        file := file st;
        processedMessages := {[ Message.id msg ]} ∪ processedMessages st;
        smartReplies := smartReplies st |},
     [ScrollToBottom; FetchSmartReplies (Message.text msg)])
  else (st, []).

(** [setSmartReplies(replies)].  It is all that remains of the
    ["chat message"] handler once [fetchSmartReplies] has resolved. *)
Definition setSmartReplies (replies : list (list N)) (st : State) : State :=
  {| messages := messages st; newMessage := newMessage st;
     typingUser := typingUser st; file := file st;
     processedMessages := processedMessages st;
     smartReplies := replies |}.

(** [setTypingUser(u)] *)
Definition setTypingUser (u : string) (st : State) : State :=
  {| messages := messages st; newMessage := newMessage st;
     typingUser := u; file := file st;
     processedMessages := processedMessages st;
     smartReplies := smartReplies st |}.

(** [socket.on("user typing", ...)]: the timer it starts runs
    [typing_timeout] 3000 ms later. *)
Definition on_user_typing (st : State) (who groupId : string) : State * list Effect :=
  if bool_decide (groupId = group_id P)
  then (setTypingUser who st, [SetTimeout 3000])
  else (st, []).

(** The callback of that timer: [setTypingUser("")]. *)
Definition typing_timeout (st : State) : State := setTypingUser "" st.

(** The function [prev.map] applies in the ["messageRead"] handler. *)
Definition mark_read (messageId readByUser : string) (msg : Message.t) : Message.t :=
  if bool_decide (Message.id msg = messageId)
     && negb (includes (Message.readBy msg) readByUser)
  then Message.with_readBy msg (default [] (Message.readBy msg) ++ [readByUser])
  else msg.

(** [socket.on("messageRead", ...)] *)
Definition on_messageRead (st : State) (messageId readByUser groupId : string) : State :=
  if bool_decide (groupId = group_id P)
  then {| messages := map (mark_read messageId readByUser) (messages st);
          newMessage := newMessage st; typingUser := typingUser st;
          file := file st; processedMessages := processedMessages st;
          smartReplies := smartReplies st |}
  else st.

(** The predicate of [messages.filter] in the read-receipt effect. *)
Definition unread (msg : Message.t) : bool :=
  match Message.user msg with
  | Some author =>
      negb (bool_decide (User.id author = User.id (user P)))
      && negb (includes (Message.readBy msg) (currentUser P))
  | None => false
  end.

(** The effect that runs when [messages] changes: one ['read receipt']
    for every unread message. *)
Definition read_receipt_effect (st : State) : list Effect :=
  map (fun msg => EmitReadReceipt (Message.id msg) (currentUser P) (group_id P))
      (filter (fun msg => unread msg = true) (messages st)).

(** What [sendMessage] reads from outside the component: the outcome of
    the upload, the cipher's salt, the generated id, the clock, and
    [socket.connected] at the moment it is tested. *)
Record SendEnv : Type := {
  uploadMediaToS3 : File -> result (string * string);
  salt : N;
  fresh_id : string;
  clock_time : string;
  socket_connected : bool
}.

(** [if (file) { const { url, type } = await uploadMediaToS3(file); ... }] *)
Definition upload_selected (env : SendEnv) (st : State)
  : list Effect * result (option string * option string) :=
  match file st with
  | Some f =>
      ([UploadMedia f],
       uploaded <- uploadMediaToS3 env f ;;
       Ok (Some (fst uploaded), Some (snd uploaded)))
  | None => ([], Ok (None, None))
  end.

(** [sendMessage(messageText)]: the new state, the effects, and whether
    the [async] function returned or threw. *)
Definition sendMessage (env : SendEnv) (st : State) (messageText : list N)
  : State * list Effect * result unit :=
  if Js.truthy (Js.trim messageText) then
    let (fx, media) := upload_selected env st in
    match media with
    | Throw e => (st, fx, Throw e)
    | Ok (mediaUrl, mediaType) =>
        match encryptMessage (salt env) messageText with
        | Throw e => (st, fx, Throw e)
        | Ok encryptedText =>
            let message :=
              {| Message.id := fresh_id env;
                 Message.user := Some (user P);
                 Message.text := encryptedText;
                 Message.time := clock_time env;
                 Message.mediaUrl := mediaUrl;
                 Message.mediaType := mediaType;
                 Message.readBy := None;
                 Message.groupId := Some (group_id P) |} in
            if socket_connected env then
              ({| messages := messages st ++ [Message.with_text message messageText];
                  newMessage := [];
                  typingUser := typingUser st;
                  file := None;
                  processedMessages := {[ Message.id message ]} ∪ processedMessages st;
                  smartReplies := [] |},
               fx ++ [EmitChatMessage message; ScrollToBottom],
               Ok tt)
            else
              (st,
               fx ++ [ConsoleError "Socket not connected. Reconnecting..."; SocketConnect],
               Ok tt)
        end
    end
  else (st, [], Ok tt).

(** [handleTyping()] *)
Definition handleTyping (st : State) : State * list Effect :=
  (setSmartReplies [] st,
   [EmitUserTyping (User.name (user P)) (group_id P)]).

End Handlers.

(** Delivering a sequence of ['chat message'] events. *)
Definition deliver `{C : CryptoJS} (P : Props) (st : State) (arrivals : list Message.t) : State :=
  foldl (fun s msg => fst (on_chat_message P s msg)) st arrivals.

(** Delivering a sequence of ['messageRead'] events
    [(messageId, user, groupId)]. *)
Definition deliver_reads (P : Props) (st : State)
    (reads : list (string * string * string)) : State :=
  foldl (fun s r => on_messageRead P s r.1.1 r.1.2 r.2) st reads.

End Chat.

(* ===================================================================== *)
(** ** The typing indicator and the browser's timers *)
(* ===================================================================== *)

Module Timers.
Import Chat.
Local Open Scope Z_scope.

(** The view together with the pending [setTimeout] callbacks of the
    ["user typing"] handler: the deadline, in milliseconds, of each timer
    in the order they were started.  The source keeps no timer handle and
    never calls [clearTimeout]. *)
Record t : Type := { view : State; pending : list Z }.

Definition start (st : State) : t := {| view := st; pending := [] |}.

(** Run the callback of every timer due at [now]. *)
Fixpoint run_due (now : Z) (timers : list Z) (st : State) : State * list Z :=
  match timers with
  | [] => (st, [])
  | deadline :: rest =>
      if deadline <=? now then run_due now rest (typing_timeout st)
      else let (st', keep) := run_due now rest st in (st', deadline :: keep)
  end.

(** The clock reaches [now]. *)
Definition advance (now : Z) (l : t) : t :=
  let (st, keep) := run_due now (pending l) (view l) in
  {| view := st; pending := keep |}.

(** The timers a handler's effects start at [now]. *)
Definition started (now : Z) (fx : list Effect) : list Z :=
  flat_map (fun e => match e with SetTimeout delay => [now + delay] | _ => [] end) fx.

(** A ["user typing"] event arrives at [now]. *)
Definition user_typing (P : Props) (now : Z) (who groupId : string) (l : t) : t :=
  let l' := advance now l in
  let (st, fx) := on_user_typing P (view l') who groupId in
  {| view := st; pending := pending l' ++ started now fx |}.

(** What the indicator shows at [now]: [{typingUser && ...}]. *)
Definition shown (now : Z) (l : t) : string := typingUser (view (advance now l)).

End Timers.

(* ===================================================================== *)
(** ** The signed-URL hook: [src/hooks/useSignedURLs] *)
(* ===================================================================== *)

Module SignedURLs.

(** How one [fetch] of a download URL, followed by [res.json()], ends:
    it is still pending, it rejects, or it yields a body whose
    [signedUrl] field is a string or is missing. *)
Inductive response : Type :=
| Pending
| Rejects
| Json (signedUrl : option string).

(** How a run of [fetchSignedUrls] ends. *)
Inductive completion : Type :=
| Done (urls : gmap string (option string))
| Rejected
| Suspended.

(** [mediaUrl.split('/').slice(3).join('/')] *)
Definition key_of (mediaUrl : string) : string :=
  Js.join "/" (drop 3 (Js.split_on "/"%char mediaUrl)).


(** [urls[key] = value] for a value that is a string or [undefined], the
    values the declared type [{ [key: string]: string }] and a missing
    field allow.  The key ["__proto__"] is an accessor of
    [Object.prototype] whose setter ignores such a value: no property is
    stored.  Every other key becomes an own property. *)
Definition assign (key : string) (value : option string)
    (object : gmap string (option string)) : gmap string (option string) :=
  if String.eqb key "__proto__" then object else <[key := value]> object.



(** The [for ... of] loop: [fetch n key] answers the [n]-th request of
    the run. *)
Fixpoint fetch_loop (fetch : nat -> string -> response) (n : nat)
    (urls : gmap string (option string)) (mediaUrls : list (option string))
    : completion :=
  match mediaUrls with
  | [] => Done urls
  | Some mediaUrl :: rest =>
      if Js.nonempty mediaUrl then
        match fetch n (key_of mediaUrl) with
        | Json signedUrl => fetch_loop fetch (S n) (assign mediaUrl signedUrl urls) rest
        | Rejects => Rejected
        | Pending => Suspended
        end
      else fetch_loop fetch n urls rest
  | None :: rest => fetch_loop fetch n urls rest
  end.

(** [fetchSignedUrls()], up to its [setSignedUrls(urls)]. *)
Definition fetchSignedUrls (fetch : nat -> string -> response)
    (mediaUrls : list (option string)) : completion :=
  fetch_loop fetch 0%nat ∅ mediaUrls.

(** The state cell [signedUrls] after the effect for [mediaUrls] has run
    as far as it gets. *)
Definition useSignedURLs (fetch : nat -> string -> response)
    (mediaUrls : list (option string))
    (signedUrls : gmap string (option string)) : gmap string (option string) :=
  match fetchSignedUrls fetch mediaUrls with
  | Done urls => urls
  | Rejected | Suspended => signedUrls
  end.

(** The references that are present and not empty. *)
Definition wanted (mediaUrls : list (option string)) : list string :=
  omap (fun m => match m with
                 | Some u => if Js.nonempty u then Some u else None
                 | None => None
                 end) mediaUrls.

End SignedURLs.

(* ===================================================================== *)
(** ** The group wrapper: [GroupListWrapper] of [App.tsx] *)
(* ===================================================================== *)

Module App.
Import Chat.

(** One mounted [Chat] element: its props, its state cells, and the cell
    of its [useSignedURLs] hook. *)
Record Instance : Type := {
  props : Props;
  state : State;
  signedUrls : gmap string (option string)
}.

(** The tail of an asynchronous call that is still in flight: what it
    does to the instance that started it when it resumes. *)
Inductive Completion : Type :=
| RepliesResolved (replies : list (list N))
| SignedUrlsResolved (urls : gmap string (option string)).

(** [setSmartReplies(replies)], respectively [setSignedUrls(urls)]:
    neither looks at the group. *)
Definition resume (c : Completion) (i : Instance) : Instance :=
  match c with
  | RepliesResolved replies =>
      {| props := props i; state := setSmartReplies replies (state i);
         signedUrls := signedUrls i |}
  | SignedUrlsResolved urls =>
      {| props := props i; state := state i; signedUrls := urls |}
  end.

(** A ["chat message"] event reaches the instance. *)
Definition arrival `{C : Codec.CryptoJS} (msg : Message.t) (i : Instance)
    : Instance * list Effect :=
  let (st, fx) := on_chat_message (props i) (state i) msg in
  ({| props := props i; state := st; signedUrls := signedUrls i |}, fx).

Section Wrapper.
Context {C : Codec.CryptoJS}.
Variables (me : User.t) (tok : string).

(** [mount g]: a new [Chat] element for group [g]. *)
Definition mount (g : string) : Instance :=
  {| props := {| group_id := g; user := me; token := tok |};
     state := initial; signedUrls := ∅ |}.

(** The wrapper: [activeGroup] (the [_id] of the group, or [null]), the
    mounted [Chat], numbered in order of mounting, when [activeGroup] is
    set, the number of elements mounted so far, and a record of every
    asynchronous request started so far: the instance that started it and
    the group that instance showed. *)
Record World : Type := {
  activeGroup : option string;
  chat : option (nat * Instance);
  mounted : nat;
  issued : list (nat * string)
}.

Definition boot : World :=
  {| activeGroup := None; chat := None; mounted := 0; issued := [] |}.

Inductive Event : Type :=
| EnterGroup (g : string)
| Back
| Arrival (msg : Message.t)
| Handles (f : State -> State)
| Resumes (instance : nat) (c : Completion).

(** - [EnterGroup g] is [onEnterGroup(g)], which only [GroupList] can
      call, and [GroupList] is rendered only while [activeGroup] is
      [null]; the new [Chat] starts its message fetch and its first
      URL resolution;
    - [Back] is [setActiveGroup(null)]: [Chat] is unmounted;
    - [Arrival] runs the listener of the mounted [Chat], which starts a
      suggestion request when it accepts the message and a URL
      resolution since [messages] changed;
    - [Handles f] is any other handler of the mounted [Chat] (a typing
      signal, a read receipt, a send, the fetched history): it updates
      the state cells and may start requests;
    - [Resumes n c] resumes a call started by instance [n]: its state
      setters belong to that instance, and React ignores them once the
      instance is unmounted. *)
Definition step (w : World) (e : Event) : World :=
  match e with
  | EnterGroup g =>
      match activeGroup w with
      | None =>
          {| activeGroup := Some g;
             chat := Some (mounted w, mount g);
             mounted := S (mounted w);
             issued := issued w ++ [(mounted w, g)] |}
      | Some _ => w
      end
  | Back =>
      {| activeGroup := None; chat := None;
         mounted := mounted w; issued := issued w |}
  | Arrival msg =>
      match chat w with
      | Some (n, i) =>
          let (i', fx) := arrival msg i in
          {| activeGroup := activeGroup w;
             chat := Some (n, i');
             mounted := mounted w;
             issued := issued w ++ match fx with
                                   | [] => []
                                   | _ :: _ => [(n, group_id (props i))]
                                   end |}
      | None => w
      end
  | Handles f =>
      match chat w with
      | Some (n, i) =>
          {| activeGroup := activeGroup w;
             chat := Some (n, {| props := props i; state := f (state i);
                                 signedUrls := signedUrls i |});
             mounted := mounted w;
             issued := issued w ++ [(n, group_id (props i))] |}
      | None => w
      end
  | Resumes n c =>
      match chat w with
      | Some (m, i) =>
          if bool_decide (n = m)
          then {| activeGroup := activeGroup w;
                  chat := Some (m, resume c i);
                  mounted := mounted w; issued := issued w |}
          else w
      | None => w
      end
  end.

Definition run (events : list Event) : World := foldl step boot events.

(** What an event does to the instance numbered [n] while it stays
    mounted: the completions of other instances do not reach it. *)
Definition session_step (n : nat) (i : Instance) (e : Event) : Instance :=
  match e with
  | Arrival msg => (arrival msg i).1
  | Handles f =>
      {| props := props i; state := f (state i); signedUrls := signedUrls i |}
  | Resumes m c => if bool_decide (m = n) then resume c i else i
  | EnterGroup _ | Back => i
  end.

(** What holds of the wrapper after every event: the instances that
    started a request have been mounted, and the mounted [Chat], if any,
    shows the active group and has started requests for that group only. *)
Definition coherent (w : World) : Prop :=
  (forall n g, (n, g) ∈ issued w -> (n < mounted w)%nat)
  /\ match chat w with
     | Some (n, i) =>
         (n < mounted w)%nat
         /\ activeGroup w = Some (group_id (props i))
         /\ (forall g, (n, g) ∈ issued w -> g = group_id (props i))
     | None => activeGroup w = None
     end.

End Wrapper.

End App.

(* ===================================================================== *)
(** ** The delivery tracker in the words of the specification *)
(* ===================================================================== *)

Module Tracker.

(** The arrivals that are ingested: the first arrival of every id that is
    not in [seen], in arrival order. *)
Fixpoint first_arrivals (seen : gset string) (arrivals : list Message.t)
    : list Message.t :=
  match arrivals with
  | [] => []
  | msg :: rest =>
      if bool_decide (Message.id msg ∈ seen) then first_arrivals seen rest
      else msg :: first_arrivals ({[ Message.id msg ]} ∪ seen) rest
  end.

(** An arrival is for the view when it carries the view's group id. *)
Definition on_channel (P : Chat.Props) (msg : Message.t) : Prop :=
  Message.groupId msg = Some (Chat.group_id P).

#[global] Instance on_channel_dec P msg : Decision (on_channel P msg).
Proof. unfold on_channel. apply _. Defined.

(** The log entry of an ingested arrival: the arrival with its text decoded. *)
Definition entry `{C : Codec.CryptoJS} (msg : Message.t) : Message.t :=
  Message.with_text msg (Codec.decryptMessage (Message.text msg)).

(** The read-by set of a message; a message without the field has been
    read by nobody. *)
Definition readers (msg : Message.t) : list string :=
  default [] (Message.readBy msg).

(** Two messages that differ at most in their read-by set. *)
Definition same_but_readBy (m m' : Message.t) : Prop :=
  Message.id m' = Message.id m
  /\ Message.user m' = Message.user m
  /\ Message.text m' = Message.text m
  /\ Message.time m' = Message.time m
  /\ Message.mediaUrl m' = Message.mediaUrl m
  /\ Message.mediaType m' = Message.mediaType m
  /\ Message.groupId m' = Message.groupId m.

End Tracker.

(* ===================================================================== *)
(** ** Sample data *)
(* ===================================================================== *)

Definition alice : User.t :=
  {| User.id := "u1"; User.name := "alice"; User.email := "alice@example.org" |}.

Definition room1 : Chat.Props :=
  {| Chat.group_id := "g1"; Chat.user := alice; Chat.token := "t" |}.

Definition photo : Chat.File :=
  {| Chat.file_name := "cat.png"; Chat.file_type := "image/png" |}.

(** An environment in which the socket is down and every upload is refused
    by the storage service. *)
Definition offline_upload_refused : Chat.SendEnv :=
  {| Chat.uploadMediaToS3 := fun _ => Codec.Throw "Failed to upload media to S3";
     Chat.salt := 0;
     Chat.fresh_id := "1700000000000-abc";
     Chat.clock_time := "10:00:00";
     Chat.socket_connected := false |}.

(** The same with uploads that succeed. *)
Definition offline : Chat.SendEnv :=
  {| Chat.uploadMediaToS3 := fun f => Codec.Ok ("https://bucket.s3.eu.amazonaws.com/cat.png"%string, Chat.file_type f);
     Chat.salt := 0;
     Chat.fresh_id := "1700000000000-abc";
     Chat.clock_time := "10:00:00";
     Chat.socket_connected := false |}.

Definition incoming (id : string) (author : User.t) (body : string) : Message.t :=
  {| Message.id := id; Message.user := Some author; Message.text := Js.lit body;
     Message.time := "10:00:00"; Message.mediaUrl := None; Message.mediaType := None;
     Message.readBy := None; Message.groupId := Some "g1"%string |}.

Definition bob : User.t :=
  {| User.id := "u2"; User.name := "bob"; User.email := "bob@example.org" |}.

Definition seen_by_alice : Message.t :=
  Message.with_readBy (incoming "a" bob "one") ["alice"%string].

Definition after_a : Chat.State :=
  (Chat.on_chat_message (C := Codec.mirror) room1 Chat.initial (incoming "a" bob "one")).1.

(** A log with a message of alice's own and one of bob's. *)
Definition two_authors : Chat.State :=
  {| Chat.messages := [incoming "m1" alice "mine"; incoming "m2" bob "yours"];
     Chat.newMessage := []; Chat.typingUser := ""; Chat.file := None;
     Chat.processedMessages := ∅; Chat.smartReplies := [] |}.

Definition ref_a : string := "https://bucket.s3.eu.amazonaws.com/a.png".
Definition ref_b : string := "https://bucket.s3.eu.amazonaws.com/b.png".
Definition ref_old : string := "https://bucket.s3.eu.amazonaws.com/old.png".

(** A signing service that answers every key but ["a.png"], for which the
    request fails. *)
Definition a_fails : nat -> string -> SignedURLs.response :=
  fun _ key =>
    if String.eqb key "a.png" then SignedURLs.Rejects
    else SignedURLs.Json (Some (String.append "signed:" key)).

(** A signing service that answers every key. *)
Definition all_answered : nat -> string -> SignedURLs.response :=
  fun _ key => SignedURLs.Json (Some (String.append "signed:" key)).

(** The map a previous cycle left behind. *)
Definition previous_map : gmap string (option string) :=
  {[ ref_old := Some "signed:old.png"%string ]}.

Definition with_photo : Chat.State :=
  {| Chat.messages := []; Chat.newMessage := Js.lit "hi"; Chat.typingUser := "";
     Chat.file := Some photo; Chat.processedMessages := ∅;
     Chat.smartReplies := [] |}.

(* ===================================================================== *)
(** ** The rest of the chat view *)
(* ===================================================================== *)

Module View.
Import Codec Chat.

(** [fetchMessages()], once its request has settled: [response] is the
    list [data.messages] of a successful answer, or the error the [try]
    block threw (the request failed, the status was not ok, the body was
    not JSON). *)
Definition fetchMessages (response : result (list Message.t)) (st : State)
    : State * list Effect :=
  match response with
  | Ok data =>
      ({| messages := data; newMessage := newMessage st;
          typingUser := typingUser st; file := file st;
          processedMessages := processedMessages st;
          smartReplies := smartReplies st |}, [])
  | Throw _ => (st, [ConsoleError "Error fetching messages:"])
  end.

(** [isMe(msg)]: [msg.user && msg.user.id === user?.id] *)
Definition isMe (P : Props) (msg : Message.t) : bool :=
  match Message.user msg with
  | Some author => bool_decide (User.id author = User.id (user P))
  | None => false
  end.

(** [useMemo(() => messages.map(msg => msg.mediaUrl), [messages])] *)
Definition mediaUrls (st : State) : list (option string) :=
  map Message.mediaUrl (messages st).




(** The events a mounted view handles, apart from the fetched history. *)
Inductive Event : Type :=
| Arrives (msg : Message.t)
| Read (messageId readByUser groupId : string)
| Typing (who groupId : string)
| TypingTimeout
| Replies (replies : list (list N))
| KeyDown
| Sends (env : SendEnv) (messageText : list N).

Definition step `{C : CryptoJS} (P : Props) (st : State) (e : Event) : State :=
  match e with
  | Arrives msg => (on_chat_message P st msg).1
  | Read messageId readByUser groupId => on_messageRead P st messageId readByUser groupId
  | Typing who groupId => (on_user_typing P st who groupId).1
  | TypingTimeout => typing_timeout st
  | Replies replies => setSmartReplies replies st
  | KeyDown => (handleTyping P st).1
  | Sends env messageText => (sendMessage P env st messageText).1.1
  end.

(** Every id [sendMessage] generates in the run is new when it is
    generated: [Date.now()] and [Math.random()] are outside the program. *)
Fixpoint fresh_sends `{C : CryptoJS} (P : Props) (st : State) (events : list Event) : Prop :=
  match events with
  | [] => True
  | e :: rest =>
      match e with
      | Sends env _ => fresh_id env ∉ processedMessages st
      | _ => True
      end
      /\ fresh_sends P (step P st e) rest
  end.

(** The ids of the log are pairwise distinct and all in the processed set. *)
Definition registered (st : State) : Prop :=
  NoDup (map Message.id (messages st))
  /\ (forall msg, msg ∈ messages st -> Message.id msg ∈ processedMessages st).

(** The text of a bubble: [<div>{decryptMessage(msg.text)}</div>]. *)
Definition bubble_text `{C : CryptoJS} (msg : Message.t) : list N :=
  decryptMessage (Message.text msg).

End View.

(* ===================================================================== *)
(** ** The socket and the effect that binds the view to it *)
(* ===================================================================== *)

Module Socket.

(** The shared [socket] of [services/socket], as far as the chat view
    uses it: whether it is connected, its [auth] and, for every event, the
    listeners registered with [socket.on], each written as the group of
    the view that registered it, in registration order. *)
Record t : Type := {
  connected : bool;
  auth : option string;
  on_connect : list string;
  on_chat_message : list string;
  on_user_typing : list string;
  on_messageRead : list string
}.

(** The module-level socket before any view has used it. *)
Definition fresh : t :=
  {| connected := false; auth := None; on_connect := [];
     on_chat_message := []; on_user_typing := []; on_messageRead := [] |}.

Inductive Emit : Type :=
| JoinGroup (groupId : string)
| LeaveGroup (groupId : string).

(** The body of the effect: [socket.auth = { token }],
    [socket.connect()] and the four [socket.on]. *)
Definition setup (tok g : string) (s : t) : t :=
  {| connected := connected s;
     auth := Some tok;
     on_connect := on_connect s ++ [g];
     on_chat_message := on_chat_message s ++ [g];
     on_user_typing := on_user_typing s ++ [g];
     on_messageRead := on_messageRead s ++ [g] |}.

(** The function the effect returns: [emit("leaveGroup")], three
    [socket.off(event)], each of which removes every listener of its
    event, and [socket.disconnect()]. *)
Definition cleanup (g : string) (s : t) : t * list Emit :=
  ({| connected := false;
      auth := auth s;
      on_connect := on_connect s;
      on_chat_message := [];
      on_user_typing := [];
      on_messageRead := [] |},
   [LeaveGroup g]).

(** The socket connects: every ["connect"] listener runs, in
    registration order, and emits ["joinGroup"] for its group. *)
Definition connects (s : t) : t * list Emit :=
  ({| connected := true; auth := auth s; on_connect := on_connect s;
      on_chat_message := on_chat_message s;
      on_user_typing := on_user_typing s;
      on_messageRead := on_messageRead s |},
   map JoinGroup (on_connect s)).

Inductive Event : Type :=
| Setup (tok g : string)
| Cleanup (g : string)
| Connects.

Definition step (s : t) (e : Event) : t * list Emit :=
  match e with
  | Setup tok g => (setup tok g s, [])
  | Cleanup g => cleanup g s
  | Connects => connects s
  end.

Definition run (s : t) (events : list Event) : t :=
  foldl (fun s e => (step s e).1) s events.

(** The groups of the views set up in a run, in order. *)
Definition entered (events : list Event) : list string :=
  omap (fun e => match e with Setup _ g => Some g | _ => None end) events.

End Socket.

(* ===================================================================== *)
(** ** The group list: [src/components/GroupList.tsx] *)
(* ===================================================================== *)

Module Groups.

(** [interface Group] *)
Record Group : Type := {
  _id : string;
  name : string;
  creator : string;
  members : list User.t;
  id : string
}.

(** [allGroups.filter(g => !myGroups.some(mg => mg._id === g._id))] *)
Definition otherGroups (allGroups myGroups : list Group) : list Group :=
  List.filter
    (fun g => negb (existsb (fun mg => bool_decide (_id mg = _id g)) myGroups))
    allGroups.

End Groups.

(* ===================================================================== *)
(** ** The session: [src/context/AuthContext.tsx] *)
(* ===================================================================== *)

Module Auth.
Import Codec.

(** [JSON.stringify({ user, token })] and [JSON.parse(saved)] followed by
    the reads of [parsed.user] and [parsed.token].  [Text] is the stored
    text and [truthy] its truthiness; parsing throws on a text that is not
    JSON, and a field that is missing reads as [undefined]. *)
Class Json : Type := {
  Text : Type;
  truthy : Text -> bool;
  stringify : User.t * string -> Text;
  parse : Text -> result (option User.t * option string)
}.

(** What [JSON] guarantees for an object of strings: the text is not
    empty and parses back to the same fields. *)
Definition lawful (J : Json) : Prop :=
  forall u tok,
    truthy (stringify (u, tok)) = true
    /\ parse (stringify (u, tok)) = Ok (Some u, Some tok).

Section Provider.
Context {J : Json}.

(** The two state cells of [AuthProvider] and the ['auth'] item of
    [localStorage]. *)
Record World : Type := {
  user : option User.t;
  token : option string;
  storage : option Text
}.

(** [loginUser(user, token)] *)
Definition loginUser (u : User.t) (tok : string) (w : World) : World :=
  {| user := Some u; token := Some tok; storage := Some (stringify (u, tok)) |}.

(** [logout()] *)
Definition logout (w : World) : World :=
  {| user := None; token := None; storage := None |}.

(** The effect that runs when the provider mounts. *)
Definition restore (w : World) : result World :=
  match storage w with
  | Some saved =>
      if truthy saved then
        parsed <- parse saved ;;
        Ok {| user := fst parsed; token := snd parsed; storage := storage w |}
      else Ok w
  | None => Ok w
  end.

(** The page is loaded again: the state cells start as [null], the
    storage is what it was, and the mount effect runs. *)
Definition reload (w : World) : result World :=
  restore {| user := None; token := None; storage := storage w |}.

Inductive Event : Type :=
| LogsIn (u : User.t) (tok : string)
| LogsOut
| Reloads.

Definition step (w : World) (e : Event) : result World :=
  match e with
  | LogsIn u tok => Ok (loginUser u tok w)
  | LogsOut => Ok (logout w)
  | Reloads => reload w
  end.

Fixpoint run (w : World) (events : list Event) : result World :=
  match events with
  | [] => Ok w
  | e :: rest => w' <- step w e ;; run w' rest
  end.

(** A browser that has never held a session. *)
Definition first_visit : World := {| user := None; token := None; storage := None |}.

(** The session in memory is the stored one. *)
Definition in_sync (w : World) : Prop :=
  (exists u tok, user w = Some u /\ token w = Some tok
                 /\ storage w = Some (stringify (u, tok)))
  \/ (user w = None /\ token w = None /\ storage w = None).

End Provider.

(** A stand-in for [JSON] on which the provider can be evaluated: the
    stored text is the pair itself. *)
Definition pairs : Json := {|
  Text := User.t * string;
  truthy := fun _ => true;
  stringify := fun x => x;
  parse := fun x => Ok (Some (fst x), Some (snd x))
|}.

End Auth.

(* ===================================================================== *)
(** ** Counting separators *)
(* ===================================================================== *)

Module Reference.

(** How often the character [sep] occurs in [s]. *)
Fixpoint occurrences (sep : Ascii.ascii) (s : string) : nat :=
  match s with
  | EmptyString => 0%nat
  | String c r => if Ascii.eqb c sep then S (occurrences sep r) else occurrences sep r
  end.

End Reference.

(* ===================================================================== *)
(** ** More sample data *)
(* ===================================================================== *)

(** An environment in which the socket is up and uploads succeed. *)
Definition online : Chat.SendEnv :=
  {| Chat.uploadMediaToS3 := fun f => Codec.Ok ("https://bucket.s3.eu.amazonaws.com/cat.png"%string, Chat.file_type f);
     Chat.salt := 0;
     Chat.fresh_id := "1700000000000-abc";
     Chat.clock_time := "10:00:00";
     Chat.socket_connected := true |}.

(** What [online] uploads for [photo]. *)
Definition photo_media : option string * option string :=
  (Some "https://bucket.s3.eu.amazonaws.com/cat.png"%string, Some "image/png"%string).

(** The message [sendMessage] emits for ["hi"] in [room1] under [online]
    with the stand-in cipher. *)
Definition hi_on_the_wire : Message.t :=
  {| Message.id := "1700000000000-abc"; Message.user := Some alice;
     Message.text := Js.lit "ENC:ih"; Message.time := "10:00:00";
     Message.mediaUrl := photo_media.1; Message.mediaType := photo_media.2;
     Message.readBy := None; Message.groupId := Some "g1"%string |}.

(** A log with two unread messages of bob's. *)
Definition two_unread : Chat.State :=
  {| Chat.messages := [incoming "m2" bob "yours"; incoming "m3" bob "again"];
     Chat.newMessage := []; Chat.typingUser := ""; Chat.file := None;
     Chat.processedMessages := ∅; Chat.smartReplies := [] |}.

(** A signing service that answers the first request for a key and lets
    every later request hang. *)
Definition only_first_answered : nat -> string -> SignedURLs.response :=
  fun n key =>
    match n with
    | O => SignedURLs.Json (Some (String.append "signed:" key))
    | S _ => SignedURLs.Pending
    end.

(** A log whose only media is the photo of [hi_on_the_wire]. *)
Definition one_photo : Chat.State :=
  {| Chat.messages := [incoming "m2" bob "yours"; hi_on_the_wire];
     Chat.newMessage := []; Chat.typingUser := ""; Chat.file := None;
     Chat.processedMessages := ∅; Chat.smartReplies := [] |}.

(** An environment in which the socket is up and every upload is refused
    by the storage service. *)
Definition online_upload_refused : Chat.SendEnv :=
  {| Chat.uploadMediaToS3 := fun _ => Codec.Throw "Failed to upload media to S3";
     Chat.salt := 0;
     Chat.fresh_id := "1700000000000-abc";
     Chat.clock_time := "10:00:00";
     Chat.socket_connected := true |}.

(** A signing service whose answers differ from request to request. *)
Definition numbered_answers : nat -> string -> SignedURLs.response :=
  fun n _ =>
    SignedURLs.Json
      (Some match n with
            | 0%nat => "answer 0"
            | 1%nat => "answer 1"
            | 2%nat => "answer 2"
            | _ => "a later answer"
            end%string).



(* ===================================================================== *)
(** * Properties *)
(* ===================================================================== *)

(** ** The codec *)

Section CodecFacts.
Import Codec.
Context {C : CryptoJS}.

Lemma startsWith_app (p s : list N) : Js.startsWith p (p ++ s) = true.
Proof.
  induction p as [|a p IH]; simpl; [reflexivity|].
  rewrite N.eqb_refl. exact IH.
Qed.

Lemma truthy_nonempty (s : list N) : s <> [] -> Js.truthy s = true.
Proof. destruct s; [congruence | reflexivity]. Qed.

Lemma encryptMessage_tagged salt x c :
  encryptMessage salt x = Ok c -> Js.startsWith ENC c = true.
Proof.
  unfold encryptMessage, bind.
  destruct (AES_encrypt salt x AES_KEY) as [c0|e]; [|discriminate].
  intros H. replace c with (ENC ++ c0) by congruence. apply startsWith_app.
Qed.

(** Decoding what [encryptMessage] produced: the tag is stripped and the
    library is asked for the text, which is returned unless it is empty. *)
Lemma decrypt_tagged (c0 : list N) (w : WordArray) (x : list N) :
  AES_decrypt c0 AES_KEY = Ok w ->
  Utf8_stringify w = Ok x ->
  decryptMessage (ENC ++ c0) = if Js.truthy x then x else ENC ++ c0.
Proof.
  intros Hd Hu. unfold decryptMessage, decryptMessage_try.
  rewrite startsWith_app. simpl negb. cbv iota.
  change (Js.slice 4 (ENC ++ c0)) with c0.
  rewrite Hd. simpl bind. rewrite Hu. simpl bind.
  destruct (Js.truthy x); reflexivity.
Qed.

(** With any lawful library the empty text does not come back: what the
    library recovers is empty, the guard [if (!plaintext) throw] takes it
    for a failure, and the tagged input is returned. *)
Lemma empty_text_not_recovered (L : lawful C) (salt : N) :
  exists c, encryptMessage salt [] = Ok c /\ decryptMessage c = c /\ c <> [].
Proof.
  destruct (L salt [] AES_KEY eq_refl) as (c0 & w & He & Hd & Hu).
  exists (ENC ++ c0). unfold encryptMessage. rewrite He. simpl bind.
  split; [reflexivity|]. split; [|discriminate].
  rewrite (decrypt_tagged _ _ _ Hd Hu). reflexivity.
Qed.

End CodecFacts.

Lemma mirror_lawful : Codec.lawful Codec.mirror.
Proof.
  intros salt x key Hx. exists (rev x), (rev (rev x)). simpl.
  rewrite Hx. rewrite !rev_involutive, Hx. auto.
Qed.

(** C2, as stated, fails on the empty text: [decryptMessage] of
    [encryptMessage("")] is the tagged ciphertext, not [""]. *)
Lemma roundtrip_empty_counterexample :
  exists c, Codec.encryptMessage (C := Codec.mirror) 0 [] = Codec.Ok c
            /\ Codec.decryptMessage (C := Codec.mirror) c <> [].
Proof.
  destruct (empty_text_not_recovered (C := Codec.mirror) mirror_lawful 0)
    as (c & He & Hd & Hne).
  exists c. split; [exact He|]. rewrite Hd. exact Hne.
Qed.

(** C2, amended: for every text [x] that has a UTF-8 encoding and is not
    empty, and for every salt the library draws, [encryptMessage x] succeeds
    with a value [c] that starts with the tag ["ENC:"], and
    [decryptMessage c = x]; this includes texts that themselves start with
    the tag. *)
Theorem decrypt_encrypt_roundtrip (C : Codec.CryptoJS) (L : Codec.lawful C)
    (salt : N) (x : list N) :
  Js.well_formed x = true ->
  x <> [] ->
  exists c, Codec.encryptMessage salt x = Codec.Ok c
            /\ Js.startsWith Codec.ENC c = true
            /\ Codec.decryptMessage c = x.
Proof.
  intros Hx Hne.
  destruct (L salt x Codec.AES_KEY Hx) as (c0 & w & He & Hd & Hu).
  exists (Codec.ENC ++ c0). unfold Codec.encryptMessage. rewrite He.
  split; [reflexivity|]. split; [apply startsWith_app|].
  rewrite (decrypt_tagged _ _ _ Hd Hu), truthy_nonempty; auto.
Qed.

Lemma decrypt_encrypt_roundtrip_witness :
  exists c, Codec.encryptMessage (C := Codec.mirror) 7 (Js.lit "ENC:Hello") = Codec.Ok c
            /\ Js.startsWith Codec.ENC c = true
            /\ Codec.decryptMessage (C := Codec.mirror) c = Js.lit "ENC:Hello".
Proof.
  apply (decrypt_encrypt_roundtrip Codec.mirror mirror_lawful 7 (Js.lit "ENC:Hello")).
  - reflexivity.
  - discriminate.
Defined.

(** C3: [decryptMessage] returns a string for every input and never
    throws.  An input without the tag ["ENC:"] is returned unchanged; a
    tagged input is returned unchanged whenever recovery fails, that is when
    the cipher throws, when the bytes are not UTF-8, or when the recovered
    text is empty; otherwise the recovered text is returned. *)
Theorem decryptMessage_fail_open (C : Codec.CryptoJS) (cipher : list N) :
  (Js.startsWith Codec.ENC cipher = false -> Codec.decryptMessage cipher = cipher)
  /\ (forall e, Codec.decryptMessage_try cipher = Codec.Throw e ->
                Codec.decryptMessage cipher = cipher)
  /\ (forall e, Js.startsWith Codec.ENC cipher = true ->
                Codec.AES_decrypt (Js.slice 4 cipher) Codec.AES_KEY = Codec.Throw e ->
                Codec.decryptMessage cipher = cipher)
  /\ (forall bytes e, Js.startsWith Codec.ENC cipher = true ->
                Codec.AES_decrypt (Js.slice 4 cipher) Codec.AES_KEY = Codec.Ok bytes ->
                Codec.Utf8_stringify bytes = Codec.Throw e ->
                Codec.decryptMessage cipher = cipher)
  /\ (forall bytes plaintext, Js.startsWith Codec.ENC cipher = true ->
                Codec.AES_decrypt (Js.slice 4 cipher) Codec.AES_KEY = Codec.Ok bytes ->
                Codec.Utf8_stringify bytes = Codec.Ok plaintext ->
                Codec.decryptMessage cipher = if Js.truthy plaintext then plaintext else cipher).
Proof.
  unfold Codec.decryptMessage, Codec.decryptMessage_try.
  repeat split.
  - intros ->. reflexivity.
  - intros e ->. reflexivity.
  - intros e -> ->. reflexivity.
  - intros bytes e -> -> . simpl. intros ->. reflexivity.
  - intros bytes plaintext -> ->. simpl. intros ->. simpl.
    destruct (Js.truthy plaintext); reflexivity.
Qed.

Lemma decryptMessage_fail_open_witness :
  Codec.decryptMessage (C := Codec.mirror) (Js.lit "plain text with no tag")
  = Js.lit "plain text with no tag".
Proof.
  apply (decryptMessage_fail_open Codec.mirror (Js.lit "plain text with no tag")).
  reflexivity.
Defined.

(** ** Blank text and [trim] *)

Section TrimFacts.

Lemma trimStart_nil_iff (s : list N) :
  Js.trimStart s = [] <-> Js.blank s = true.
Proof.
  unfold Js.blank. induction s as [|c r IH]; simpl; [tauto|].
  destruct (Js.is_whitespace c); simpl; [exact IH|].
  split; discriminate.
Qed.

(** What [trimStart] leaves is empty or starts with a visible character. *)
Lemma trimStart_blank_nil (s : list N) :
  Js.blank (Js.trimStart s) = true -> Js.trimStart s = [].
Proof.
  unfold Js.blank. induction s as [|c r IH]; simpl; [reflexivity|].
  destruct (Js.is_whitespace c) eqn:Hc; [exact IH|].
  simpl. rewrite Hc. discriminate.
Qed.

Lemma blank_rev (s : list N) : Js.blank (rev s) = Js.blank s.
Proof.
  unfold Js.blank. induction s as [|c r IH]; simpl; [reflexivity|].
  rewrite forallb_app, IH. simpl. rewrite andb_true_r. apply andb_comm.
Qed.

Lemma trim_nil_iff (s : list N) : Js.trim s = [] <-> Js.blank s = true.
Proof.
  unfold Js.trim, Js.trimEnd. split.
  - intros H. apply trimStart_nil_iff, trimStart_blank_nil.
    rewrite <- blank_rev. apply trimStart_nil_iff.
    apply (f_equal (@rev N)) in H. rewrite rev_involutive in H. exact H.
  - intros H. apply trimStart_nil_iff in H. rewrite H. reflexivity.
Qed.

Lemma truthy_trim (s : list N) : Js.truthy (Js.trim s) = negb (Js.blank s).
Proof.
  destruct (Js.blank s) eqn:Hb.
  - apply trim_nil_iff in Hb. rewrite Hb. reflexivity.
  - destruct (Js.trim s) eqn:Ht; [|reflexivity].
    apply trim_nil_iff in Ht. congruence.
Qed.

End TrimFacts.

(** ** Sending *)

(** C10: when the text is empty or white space only, [sendMessage] returns
    at once: no effect is performed (nothing is emitted on the channel and no
    upload starts) and the state, that is the message log, the processed
    ids, the input field, the selected file and the suggestions, is the one
    it was called in. *)
Theorem sendMessage_blank (C : Codec.CryptoJS) (P : Chat.Props)
    (env : Chat.SendEnv) (st : Chat.State) (messageText : list N) :
  Js.blank messageText = true ->
  Chat.sendMessage P env st messageText = (st, [], Codec.Ok tt).
Proof.
  intros Hb. unfold Chat.sendMessage.
  rewrite truthy_trim, Hb. reflexivity.
Qed.

Lemma sendMessage_blank_witness :
  Chat.sendMessage (C := Codec.mirror) room1 offline with_photo (Js.lit "  ")
  = (with_photo, [], Codec.Ok tt).
Proof.
  apply (sendMessage_blank Codec.mirror room1 offline with_photo (Js.lit "  ")).
  reflexivity.
Defined.

(** C8, as stated, fails when a file is selected and its upload fails: the
    upload is awaited before [socket.connected] is looked at, the error
    leaves [sendMessage], and [socket.connect()] is never called. *)
Lemma send_disconnected_counterexample :
  Js.blank (Js.lit "hi") = false
  /\ Chat.socket_connected offline_upload_refused = false
  /\ Chat.sendMessage (C := Codec.mirror) room1 offline_upload_refused with_photo (Js.lit "hi")
     = (with_photo, [Chat.UploadMedia photo], Codec.Throw "Failed to upload media to S3")
  /\ Chat.SocketConnect ∉ [Chat.UploadMedia photo].
Proof.
  repeat split; try reflexivity.
  intros H. apply list_elem_of_In in H. simpl in H. intuition discriminate.
Qed.

(** C8, amended: when [sendMessage] is called with text that is not blank
    and the socket is not connected, the state (message log, processed ids,
    input field, selected file, suggestions) is left as it was and nothing
    is emitted on the channel.  If the upload of the selected file, when
    there is one, and the encoding of the text complete, the attempt is
    reported on the console and [socket.connect()] is called, and these are
    the only effects after the upload: nothing is queued or retried.  If the
    upload or the encoding throws, the error leaves [sendMessage] and no
    reconnection is started. *)
Theorem send_while_disconnected (C : Codec.CryptoJS) (P : Chat.Props)
    (env : Chat.SendEnv) (st : Chat.State) (messageText : list N) :
  Js.blank messageText = false ->
  Chat.socket_connected env = false ->
  let uploads := fst (Chat.upload_selected env st) in
  let sent := Chat.sendMessage P env st messageText in
  sent.1.1 = st
  /\ (forall m, Chat.EmitChatMessage m ∉ sent.1.2)
  /\ (forall media c,
        snd (Chat.upload_selected env st) = Codec.Ok media ->
        Codec.encryptMessage (Chat.salt env) messageText = Codec.Ok c ->
        sent = (st,
                uploads ++ [Chat.ConsoleError "Socket not connected. Reconnecting...";
                            Chat.SocketConnect],
                Codec.Ok tt))
  /\ (forall e,
        snd (Chat.upload_selected env st) = Codec.Throw e
        \/ (exists media, snd (Chat.upload_selected env st) = Codec.Ok media)
           /\ Codec.encryptMessage (Chat.salt env) messageText = Codec.Throw e ->
        sent = (st, uploads, Codec.Throw e) /\ Chat.SocketConnect ∉ uploads).
Proof.
  intros Hb Hc. cbv zeta. unfold Chat.sendMessage.
  rewrite truthy_trim, Hb, Hc. simpl negb. cbv iota.
  assert (Hup : forall e, e ∈ (Chat.upload_selected env st).1 ->
                          exists f, e = Chat.UploadMedia f).
  { unfold Chat.upload_selected. destruct (Chat.file st) as [f|]; simpl.
    - intros e He. apply list_elem_of_singleton in He. eauto.
    - intros e He. inversion He. }
  destruct (Chat.upload_selected env st) as [fx media]. simpl in *.
  destruct media as [[mediaUrl mediaType]|e0].
  - destruct (Codec.encryptMessage (Chat.salt env) messageText) as [c0|e1]; simpl.
    + split; [reflexivity|]. split.
      * intros m Hm. apply elem_of_app in Hm as [Hm|Hm].
        -- apply Hup in Hm as [f Hf]. discriminate.
        -- apply list_elem_of_In in Hm. simpl in Hm. intuition discriminate.
      * split; [reflexivity|].
        intros e [H|[_ H]]; discriminate.
    + split; [reflexivity|]. split.
      * intros m Hm. apply Hup in Hm as [f Hf]. discriminate.
      * split; [discriminate|].
        intros e [H|[_ H]]; [discriminate|]. injection H as ->.
        split; [reflexivity|]. intros Hm. apply Hup in Hm as [f Hf]. discriminate.
  - simpl. split; [reflexivity|]. split.
    + intros m Hm. apply Hup in Hm as [f Hf]. discriminate.
    + split; [discriminate|].
      intros e [H|[[media H] _]]; [|discriminate]. injection H as ->.
      split; [reflexivity|]. intros Hm. apply Hup in Hm as [f Hf]. discriminate.
Qed.

Lemma send_while_disconnected_witness :
  Chat.sendMessage (C := Codec.mirror) room1 offline with_photo (Js.lit "hi")
  = (with_photo,
     [Chat.UploadMedia photo;
      Chat.ConsoleError "Socket not connected. Reconnecting...";
      Chat.SocketConnect],
     Codec.Ok tt).
Proof.
  refine (proj1 (proj2 (proj2
    (send_while_disconnected Codec.mirror room1 offline with_photo (Js.lit "hi")
       _ _))) _ (Js.lit "ENC:ih") _ _);
    reflexivity.
Defined.

(** ** Delivery and deduplication *)

Section DeliveryFacts.
Import Chat Tracker.
Context {C : Codec.CryptoJS}.
Variable P : Props.

Lemma on_chat_message_duplicate (st : State) (msg : Message.t) :
  Message.id msg ∈ processedMessages st -> on_chat_message P st msg = (st, []).
Proof.
  intros Hin. unfold on_chat_message.
  rewrite (bool_decide_eq_true_2 _ Hin), andb_false_r. reflexivity.
Qed.

Lemma on_chat_message_other_group (st : State) (msg : Message.t) :
  ~ on_channel P msg -> on_chat_message P st msg = (st, []).
Proof.
  intros Hg. unfold on_chat_message.
  rewrite (bool_decide_eq_false_2 _ Hg). reflexivity.
Qed.

Lemma on_chat_message_fresh (st : State) (msg : Message.t) :
  on_channel P msg -> Message.id msg ∉ processedMessages st ->
  messages (on_chat_message P st msg).1 = messages st ++ [entry msg]
  /\ processedMessages (on_chat_message P st msg).1
     = {[ Message.id msg ]} ∪ processedMessages st.
Proof.
  intros Hg Hn. unfold on_chat_message.
  rewrite (bool_decide_eq_true_2 _ Hg), (bool_decide_eq_false_2 _ Hn).
  simpl. auto.
Qed.

(** The log after a run of arrivals, by induction on the arrivals. *)
Lemma deliver_log (arrivals : list Message.t) : forall st : State,
  messages (deliver P st arrivals)
  = messages st ++ map entry (first_arrivals (processedMessages st)
                                             (filter (on_channel P) arrivals)).
Proof.
  induction arrivals as [|msg rest IH]; intros st.
  - simpl. rewrite app_nil_r. reflexivity.
  - change (deliver P st (msg :: rest))
      with (deliver P (on_chat_message P st msg).1 rest).
    rewrite IH. rewrite filter_cons.
    destruct (decide (on_channel P msg)) as [Hg|Hg].
    + simpl first_arrivals.
      destruct (decide (Message.id msg ∈ processedMessages st)) as [Hin|Hn].
      * rewrite (bool_decide_eq_true_2 _ Hin).
        rewrite on_chat_message_duplicate by exact Hin. reflexivity.
      * rewrite (bool_decide_eq_false_2 _ Hn).
        destruct (on_chat_message_fresh st msg Hg Hn) as [-> ->].
        rewrite <- app_assoc. reflexivity.
    + rewrite on_chat_message_other_group by exact Hg. reflexivity.
Qed.

Lemma first_arrivals_fresh (l : list Message.t) : forall seen msg,
  msg ∈ first_arrivals seen l -> Message.id msg ∉ seen.
Proof.
  induction l as [|m rest IH]; intros seen msg; simpl.
  - intros H. inversion H.
  - case_bool_decide as Hm.
    + apply IH.
    + intros H. apply elem_of_cons in H as [->|H]; [exact Hm|].
      apply IH in H. set_solver.
Qed.

Lemma first_arrivals_NoDup (l : list Message.t) : forall seen,
  NoDup (map Message.id (first_arrivals seen l)).
Proof.
  induction l as [|m rest IH]; intros seen; simpl.
  - constructor.
  - case_bool_decide as Hm; [apply IH|].
    simpl. constructor; [|apply IH].
    intros Hin. apply list_elem_of_fmap in Hin as (m' & Heq & Hin).
    apply first_arrivals_fresh in Hin. set_solver.
Qed.

Lemma first_arrivals_complete (l : list Message.t) : forall seen msg,
  msg ∈ l -> Message.id msg ∉ seen ->
  Message.id msg ∈ map Message.id (first_arrivals seen l).
Proof.
  induction l as [|m rest IH]; intros seen msg Hin Hn.
  - inversion Hin.
  - simpl. apply elem_of_cons in Hin as [->|Hin].
    + rewrite (bool_decide_eq_false_2 _ Hn). simpl. left.
    + case_bool_decide as Hm; [apply IH; assumption|].
      simpl. destruct (decide (Message.id msg = Message.id m)) as [->|Hne].
      * left.
      * right. apply IH; [assumption|].
        intros Hs. apply elem_of_union in Hs as [Hs|Hs]; [|auto].
        apply elem_of_singleton in Hs. auto.
Qed.

(** Every ingested arrival is the first one that carries its id. *)
Lemma first_arrivals_first (l : list Message.t) : forall seen msg,
  msg ∈ first_arrivals seen l ->
  exists before after,
    l = before ++ msg :: after
    /\ Message.id msg ∉ map Message.id before.
Proof.
  induction l as [|m rest IH]; intros seen msg; simpl.
  - intros H. inversion H.
  - case_bool_decide as Hm.
    + intros H. pose proof (first_arrivals_fresh _ _ _ H) as Hf.
      destruct (IH _ _ H) as (before & after & -> & Hb).
      exists (m :: before), after. split; [reflexivity|].
      simpl. intros Hin. apply elem_of_cons in Hin as [Heq|Hin]; [|auto].
      congruence.
    + intros H. apply elem_of_cons in H as [->|H].
      * exists [], rest. split; [reflexivity|]. simpl. intros Hin. inversion Hin.
      * pose proof (first_arrivals_fresh _ _ _ H) as Hf.
        destruct (IH _ _ H) as (before & after & -> & Hb).
        exists (m :: before), after. split; [reflexivity|].
        simpl. intros Hin. apply elem_of_cons in Hin as [Heq|Hin]; [|auto].
        set_solver.
Qed.

Lemma first_arrivals_sublist (l : list Message.t) : forall seen,
  sublist (first_arrivals seen l) l.
Proof.
  induction l as [|m rest IH]; intros seen; simpl.
  - constructor.
  - case_bool_decide; [apply sublist_cons, IH | apply sublist_skip, IH].
Qed.

End DeliveryFacts.

(** C1: whatever the view has ingested so far, a ['chat message'] whose id
    is in the processed set changes nothing, and a run of arrivals appends
    to the log exactly the first arrival of every id that was not processed
    before, decoded, in arrival order (an arrival for another group is
    ignored): the ids appended are pairwise distinct, none of them was
    processed before, every id that arrives on the channel and was not
    processed before is among them, each entry comes from the first arrival
    that carries its id, and the appended entries are a subsequence of the
    arrivals. *)
Theorem chat_message_dedup (C : Codec.CryptoJS) (P : Chat.Props)
    (st : Chat.State) (arrivals : list Message.t) :
  let accepted := filter (Tracker.on_channel P) arrivals in
  let kept := Tracker.first_arrivals (Chat.processedMessages st) accepted in
  (forall msg, Message.id msg ∈ Chat.processedMessages st ->
               Chat.on_chat_message P st msg = (st, []))
  /\ Chat.messages (Chat.deliver P st arrivals)
     = Chat.messages st ++ map Tracker.entry kept
  /\ NoDup (map Message.id kept)
  /\ (forall msg, msg ∈ kept -> Message.id msg ∉ Chat.processedMessages st)
  /\ (forall msg, msg ∈ accepted -> Message.id msg ∉ Chat.processedMessages st ->
                  Message.id msg ∈ map Message.id kept)
  /\ (forall msg, msg ∈ kept ->
        exists before after,
          accepted = before ++ msg :: after
          /\ Message.id msg ∉ map Message.id before)
  /\ sublist kept arrivals.
Proof.
  cbv zeta. repeat split.
  - apply on_chat_message_duplicate.
  - apply deliver_log.
  - apply first_arrivals_NoDup.
  - apply first_arrivals_fresh.
  - apply first_arrivals_complete.
  - apply first_arrivals_first.
  - etransitivity; [apply first_arrivals_sublist|]. apply sublist_filter.
Qed.

Lemma chat_message_dedup_witness :
  Chat.on_chat_message (C := Codec.mirror) room1 after_a (incoming "a" bob "again")
  = (after_a, []).
Proof.
  apply (chat_message_dedup Codec.mirror room1 after_a []).
  apply (bool_decide_unpack _). vm_compute. exact I.
Defined.

(** The scenario of the specification: arrivals [a, b, a] give the log
    [a, b]. *)
Example dedup_scenario :
  let a := incoming "a" bob "one" in
  let b := incoming "b" bob "two" in
  Chat.messages (Chat.deliver (C := Codec.mirror) room1 Chat.initial [a; b; a]) = [a; b].
Proof. cbv zeta. rewrite deliver_log. reflexivity. Qed.

(** ** Read receipts *)

Section ReadFacts.
Import Chat Tracker.
Variable P : Props.

Lemma includes_readers (msg : Message.t) (r : string) :
  includes (Message.readBy msg) r = true <-> r ∈ readers msg.
Proof.
  unfold includes, readers. destruct (Message.readBy msg) as [l|]; simpl.
  - split; [apply bool_decide_eq_true_1 | apply bool_decide_eq_true_2].
  - split; [discriminate | intros H; inversion H].
Qed.

Lemma includes_readers_false (msg : Message.t) (r : string) :
  r ∉ readers msg -> includes (Message.readBy msg) r = false.
Proof.
  intros H. destruct (includes (Message.readBy msg) r) eqn:Hi; [|reflexivity].
  apply includes_readers in Hi. contradiction.
Qed.

Lemma mark_read_present (messageId reader : string) (msg : Message.t) :
  reader ∈ readers msg -> mark_read messageId reader msg = msg.
Proof.
  intros H. apply includes_readers in H. unfold mark_read.
  rewrite H, andb_false_r. reflexivity.
Qed.

(** One update keeps every field but the read-by set, which it keeps or
    extends by the reader, at the end. *)
Lemma mark_read_spec (messageId reader : string) (msg : Message.t) :
  same_but_readBy msg (mark_read messageId reader msg)
  /\ (readers (mark_read messageId reader msg) = readers msg
      \/ Message.id msg = messageId
         /\ (reader ∉ readers msg)
         /\ readers (mark_read messageId reader msg) = readers msg ++ [reader]).
Proof.
  unfold mark_read.
  destruct (bool_decide (Message.id msg = messageId)) eqn:Hid; simpl.
  - destruct (includes (Message.readBy msg) reader) eqn:Hin; simpl.
    + split; [repeat split | (left; reflexivity)].
    + split; [repeat split|]. right.
      apply bool_decide_eq_true in Hid. split; [exact Hid|]. split.
      * intros Hr. apply includes_readers in Hr. congruence.
      * reflexivity.
  - split; [repeat split | (left; reflexivity)].
Qed.

Lemma mark_read_idempotent (messageId reader : string) (msg : Message.t) :
  mark_read messageId reader (mark_read messageId reader msg)
  = mark_read messageId reader msg.
Proof.
  destruct (bool_decide (Message.id msg = messageId)
            && negb (includes (Message.readBy msg) reader)) eqn:Hc.
  - replace (mark_read messageId reader msg)
      with (Message.with_readBy msg (default [] (Message.readBy msg) ++ [reader]))
      by (unfold mark_read; rewrite Hc; reflexivity).
    apply mark_read_present. unfold readers. simpl.
    apply elem_of_app. right. apply list_elem_of_singleton. reflexivity.
  - replace (mark_read messageId reader msg) with msg
      by (unfold mark_read; rewrite Hc; reflexivity).
    unfold mark_read. rewrite Hc. reflexivity.
Qed.

Lemma on_messageRead_idempotent (st : State) (messageId reader groupId : string) :
  on_messageRead P (on_messageRead P st messageId reader groupId) messageId reader groupId
  = on_messageRead P st messageId reader groupId.
Proof.
  unfold on_messageRead.
  destruct (bool_decide (groupId = group_id P)) eqn:Hg; [|reflexivity].
  simpl. f_equal. rewrite map_map. apply map_ext. intros m.
  apply mark_read_idempotent.
Qed.

Lemma same_but_readBy_trans (a b c : Message.t) :
  same_but_readBy a b -> same_but_readBy b c -> same_but_readBy a c.
Proof. unfold same_but_readBy. intuition congruence. Qed.

Lemma same_but_readBy_refl (a : Message.t) : same_but_readBy a a.
Proof. repeat split. Qed.

(** One event, seen at one position of the log. *)
Lemma on_messageRead_lookup (st : State) (messageId reader groupId : string)
    (i : nat) (msg : Message.t) :
  messages st !! i = Some msg ->
  exists msg',
    messages (on_messageRead P st messageId reader groupId) !! i = Some msg'
    /\ same_but_readBy msg msg'
    /\ (forall r, r ∈ readers msg -> r ∈ readers msg').
Proof.
  intros Hi. unfold on_messageRead. case_bool_decide as Hg.
  - exists (mark_read messageId reader msg). simpl.
    split; [rewrite list_lookup_fmap, Hi; reflexivity|].
    destruct (mark_read_spec messageId reader msg) as [Hs [->|(_ & _ & ->)]].
    + split; auto.
    + split; [exact Hs|]. intros r Hr. apply elem_of_app. auto.
  - exists msg. split; [exact Hi|]. split; [apply same_but_readBy_refl | auto].
Qed.

Lemma on_messageRead_frame (st : State) (messageId reader groupId : string) :
  let st' := on_messageRead P st messageId reader groupId in
  length (messages st') = length (messages st)
  /\ newMessage st' = newMessage st
  /\ typingUser st' = typingUser st
  /\ file st' = file st
  /\ processedMessages st' = processedMessages st
  /\ smartReplies st' = smartReplies st.
Proof.
  cbv zeta. unfold on_messageRead. case_bool_decide; simpl; [|tauto].
  rewrite length_map. tauto.
Qed.

(** Any run of events, by induction on the run. *)
Lemma deliver_reads_lookup (reads : list (string * string * string)) :
  forall (st : State) (i : nat) (msg : Message.t),
    messages st !! i = Some msg ->
    exists msg',
      messages (deliver_reads P st reads) !! i = Some msg'
      /\ same_but_readBy msg msg'
      /\ (forall r, r ∈ readers msg -> r ∈ readers msg').
Proof.
  induction reads as [|[[mid reader] gid] rest IH]; intros st i msg Hi.
  - exists msg. split; [exact Hi|]. split; [apply same_but_readBy_refl | auto].
  - destruct (on_messageRead_lookup st mid reader gid i msg Hi)
      as (m1 & H1 & Hs1 & Hr1).
    destruct (IH _ i m1 H1) as (m2 & H2 & Hs2 & Hr2).
    exists m2. split; [exact H2|].
    split; [eapply same_but_readBy_trans; eassumption | auto].
Qed.

Lemma deliver_reads_frame (reads : list (string * string * string)) :
  forall st : State,
    let st' := deliver_reads P st reads in
    length (messages st') = length (messages st)
    /\ newMessage st' = newMessage st
    /\ typingUser st' = typingUser st
    /\ file st' = file st
    /\ processedMessages st' = processedMessages st
    /\ smartReplies st' = smartReplies st.
Proof.
  induction reads as [|[[mid reader] gid] rest IH]; intros st; cbv zeta.
  - simpl. tauto.
  - change (deliver_reads P st ((mid, reader, gid) :: rest))
      with (deliver_reads P (on_messageRead P st mid reader gid) rest).
    pose proof (IH (on_messageRead P st mid reader gid)) as H. cbv zeta in H.
    pose proof (on_messageRead_frame st mid reader gid) as H0. cbv zeta in H0.
    intuition congruence.
Qed.

End ReadFacts.

(** C6: the ['messageRead'] update is idempotent and monotonic.  A message
    whose read-by set already holds the reader is left as it is, and
    handling the same event a second time changes nothing.  After any run
    of ['messageRead'] events the log has the same length, the message at
    every position has the same id, author, text, time, media reference,
    media kind and group, and every reader it had is still in its read-by
    set; the other state cells are untouched. *)
Theorem markRead_idempotent_monotonic (P : Chat.Props) (st : Chat.State) :
  (forall messageId reader msg,
      reader ∈ Tracker.readers msg -> Chat.mark_read messageId reader msg = msg)
  /\ (forall messageId reader groupId,
        Chat.on_messageRead P (Chat.on_messageRead P st messageId reader groupId)
                            messageId reader groupId
        = Chat.on_messageRead P st messageId reader groupId)
  /\ (forall reads i msg,
        Chat.messages st !! i = Some msg ->
        exists msg',
          Chat.messages (Chat.deliver_reads P st reads) !! i = Some msg'
          /\ Tracker.same_but_readBy msg msg'
          /\ (forall r, r ∈ Tracker.readers msg -> r ∈ Tracker.readers msg'))
  /\ (forall reads,
        let st' := Chat.deliver_reads P st reads in
        length (Chat.messages st') = length (Chat.messages st)
        /\ Chat.newMessage st' = Chat.newMessage st
        /\ Chat.typingUser st' = Chat.typingUser st
        /\ Chat.file st' = Chat.file st
        /\ Chat.processedMessages st' = Chat.processedMessages st
        /\ Chat.smartReplies st' = Chat.smartReplies st).
Proof.
  split; [intros; apply mark_read_present; assumption|].
  split; [intros; apply on_messageRead_idempotent|].
  split; [intros; apply deliver_reads_lookup; assumption|].
  intros reads. apply deliver_reads_frame.
Qed.

Lemma markRead_idempotent_monotonic_witness :
  Chat.mark_read "a" "alice" seen_by_alice = seen_by_alice.
Proof.
  apply (markRead_idempotent_monotonic room1 Chat.initial).
  apply (bool_decide_unpack _). vm_compute. exact I.
Defined.

(** ** The automatic read receipts *)

Section ReceiptFacts.
Import Chat Tracker.
Variable P : Props.

Lemma unread_own (msg : Message.t) (author : User.t) :
  Message.user msg = Some author ->
  User.id author = User.id (user P) ->
  unread P msg = false.
Proof.
  intros Hu Hid. unfold unread. rewrite Hu.
  rewrite (bool_decide_eq_true_2 _ Hid). reflexivity.
Qed.

Lemma unread_inv (msg : Message.t) :
  unread P msg = true ->
  exists author,
    Message.user msg = Some author
    /\ User.id author <> User.id (user P)
    /\ currentUser P ∉ readers msg.
Proof.
  unfold unread. destruct (Message.user msg) as [author|]; [|discriminate].
  intros H. apply andb_true_iff in H as [H1 H2].
  exists author. split; [reflexivity|]. split.
  - apply negb_true_iff, bool_decide_eq_false_1 in H1. exact H1.
  - apply negb_true_iff in H2. intros Hr.
    apply includes_readers in Hr. congruence.
Qed.

Lemma receipt_inv (st : State) (e : Effect) :
  e ∈ read_receipt_effect P st ->
  exists msg,
    msg ∈ messages st /\ unread P msg = true
    /\ e = EmitReadReceipt (Message.id msg) (currentUser P) (group_id P).
Proof.
  unfold read_receipt_effect. intros H.
  apply list_elem_of_fmap in H as (msg & -> & Hin).
  apply list_elem_of_filter in Hin as [Hu Hin]. eauto.
Qed.

Lemma receipt_intro (st : State) (msg : Message.t) :
  msg ∈ messages st -> unread P msg = true ->
  EmitReadReceipt (Message.id msg) (currentUser P) (group_id P)
  ∈ read_receipt_effect P st.
Proof.
  intros Hin Hu. unfold read_receipt_effect.
  apply list_elem_of_fmap. exists msg. split; [reflexivity|].
  apply list_elem_of_filter. auto.
Qed.

Lemma NoDup_ids_inj (l : list Message.t) :
  NoDup (map Message.id l) ->
  forall a b, a ∈ l -> b ∈ l -> Message.id a = Message.id b -> a = b.
Proof.
  induction l as [|m rest IH]; intros Hnd a b Ha Hb Heq.
  - inversion Ha.
  - simpl in Hnd. apply NoDup_cons in Hnd as [Hm Hnd].
    apply elem_of_cons in Ha as [->|Ha]; apply elem_of_cons in Hb as [->|Hb].
    + reflexivity.
    + exfalso. apply Hm. rewrite Heq. apply list_elem_of_fmap. eauto.
    + exfalso. apply Hm. rewrite <- Heq. apply list_elem_of_fmap. eauto.
    + apply IH; assumption.
Qed.

End ReceiptFacts.

(** C7: a message whose author is the current user never passes the filter
    of the read-receipt effect, so it triggers no receipt.  Every receipt
    the effect emits names the current user and the view's group and comes
    from a message of the log that has an author other than the current
    user and whose read-by set does not yet hold the current user, and every
    such message triggers one.  When the ids of the log are pairwise
    distinct, no receipt at all carries the id of a message of the current
    user's own. *)
Theorem no_self_read_receipt (P : Chat.Props) (st : Chat.State) :
  (forall msg author,
      Message.user msg = Some author ->
      User.id author = User.id (Chat.user P) ->
      Chat.unread P msg = false)
  /\ (forall e, e ∈ Chat.read_receipt_effect P st ->
        exists msg author,
          msg ∈ Chat.messages st
          /\ e = Chat.EmitReadReceipt (Message.id msg) (Chat.currentUser P) (Chat.group_id P)
          /\ Message.user msg = Some author
          /\ User.id author <> User.id (Chat.user P)
          /\ (Chat.currentUser P ∉ Tracker.readers msg))
  /\ (forall msg, msg ∈ Chat.messages st -> Chat.unread P msg = true ->
        Chat.EmitReadReceipt (Message.id msg) (Chat.currentUser P) (Chat.group_id P)
        ∈ Chat.read_receipt_effect P st)
  /\ (NoDup (map Message.id (Chat.messages st)) ->
      forall msg author reader g,
        msg ∈ Chat.messages st ->
        Message.user msg = Some author ->
        User.id author = User.id (Chat.user P) ->
        Chat.EmitReadReceipt (Message.id msg) reader g ∉ Chat.read_receipt_effect P st).
Proof.
  split; [apply unread_own|].
  split.
  { intros e He. apply receipt_inv in He as (msg & Hin & Hu & ->).
    destruct (unread_inv P msg Hu) as (author & Ha & Hne & Hr).
    exists msg, author. auto. }
  split; [apply receipt_intro|].
  intros Hnd msg author reader g Hin Hu Hid He.
  apply receipt_inv in He as (msg' & Hin' & Hu' & Heq).
  injection Heq as Hid' _ _.
  assert (msg = msg') as <- by (eapply NoDup_ids_inj; eassumption).
  rewrite (unread_own P msg author Hu Hid) in Hu'. discriminate.
Qed.

Lemma no_self_read_receipt_witness :
  Chat.unread room1 (incoming "m1" alice "mine") = false
  /\ Chat.EmitReadReceipt "m1" "alice" "g1" ∉ Chat.read_receipt_effect room1 two_authors.
Proof.
  pose proof (no_self_read_receipt room1 two_authors) as (Hown & _ & _ & Hnone).
  split.
  - apply (Hown _ alice); reflexivity.
  - apply (fun nd => Hnone nd (incoming "m1" alice "mine") alice "alice" "g1").
    + apply (bool_decide_unpack _). vm_compute. exact I.
    + left.
    + reflexivity.
    + reflexivity.
Defined.

(** ** The typing indicator *)

Section TimerFacts.
Import Chat Timers.
Local Open Scope Z_scope.
Variable P : Props.

(** A signal for the view's group, received when no timer is due: the
    indicator names the user and one more timer is pending. *)
Lemma user_typing_not_due (now : Z) (who : string) (l : t) :
  Forall (fun deadline => now < deadline) (pending l) ->
  user_typing P now who (group_id P) l
  = {| view := setTypingUser who (view l); pending := pending l ++ [now + 3000] |}.
Proof.
  intros Hp. unfold user_typing, advance.
  assert (Hrun : forall st, run_due now (pending l) st = (st, pending l)).
  { induction Hp as [|d rest Hd _ IH]; intros st; simpl; [reflexivity|].
    destruct (Z.leb_spec d now); [lia|]. rewrite IH. reflexivity. }
  rewrite Hrun. simpl. unfold on_user_typing.
  rewrite bool_decide_eq_true_2 by reflexivity. reflexivity.
Qed.

End TimerFacts.

(** C4, as stated, fails: a signal at 0 ms and a second one from the same
    user at 2000 ms leave the indicator cleared from 3000 ms on, the first
    signal's deadline, although 3 seconds after the refresh is 5000 ms. *)
Lemma typing_refresh_counterexample :
  let l1 := Timers.user_typing room1 0 "bob" "g1" (Timers.start Chat.initial) in
  let l2 := Timers.user_typing room1 2000 "bob" "g1" l1 in
  Timers.shown 2999 l2 = "bob"%string
  /\ Timers.shown 3000 l2 = ""%string
  /\ Timers.shown 4000 l2 = ""%string
  /\ (4000 < 2000 + 3000)%Z.
Proof. cbv zeta. repeat split. Qed.

(** C4, amended: a typing signal for the view's group sets the single
    indicator cell to the signalling user and starts a timer that clears
    the cell 3000 ms after that signal; a signal for another group does
    nothing.  No timer is ever cancelled or restarted.  With no further
    signal the indicator shows the user until 3000 ms after the signal and
    is clear from then on.  A second signal before that deadline replaces
    the name in the one cell (nothing is stacked), the indicator shows it
    until the first signal's deadline, and it is clear from the first
    signal's deadline on. *)
Theorem typing_indicator_timers (P : Chat.Props) (st : Chat.State)
    (u1 u2 : string) (t1 t2 : Z) :
  (t1 <= t2 < t1 + 3000)%Z ->
  let l1 := Timers.user_typing P t1 u1 (Chat.group_id P) (Timers.start st) in
  let l2 := Timers.user_typing P t2 u2 (Chat.group_id P) l1 in
  (forall t, (t1 <= t < t1 + 3000)%Z -> Timers.shown t l1 = u1)
  /\ (forall t, (t1 + 3000 <= t)%Z -> Timers.shown t l1 = ""%string)
  /\ Timers.pending l2 = [(t1 + 3000)%Z; (t2 + 3000)%Z]
  /\ (forall t, (t2 <= t < t1 + 3000)%Z -> Timers.shown t l2 = u2)
  /\ (forall t, (t1 + 3000 <= t)%Z -> Timers.shown t l2 = ""%string)
  /\ (forall g now who l, g <> Chat.group_id P ->
        Timers.user_typing P now who g l = Timers.advance now l).
Proof.
  intros Ht. cbv zeta.
  rewrite (user_typing_not_due P t1 u1 (Timers.start st)) by constructor.
  rewrite user_typing_not_due
    by (simpl; repeat constructor; lia).
  unfold Timers.shown, Timers.advance. simpl.
  repeat split.
  - intros t Hlt. destruct (Z.leb_spec (t1 + 3000) t); [lia|]. reflexivity.
  - intros t Hge. destruct (Z.leb_spec (t1 + 3000) t); [|lia]. reflexivity.
  - intros t Hlt.
    destruct (Z.leb_spec (t1 + 3000) t); [lia|].
    destruct (Z.leb_spec (t2 + 3000) t); [lia|]. reflexivity.
  - intros t Hge.
    destruct (Z.leb_spec (t1 + 3000) t); [|lia].
    destruct (Z.leb_spec (t2 + 3000) t); reflexivity.
  - intros g now who l Hg. unfold Timers.user_typing, Chat.on_user_typing.
    rewrite (bool_decide_eq_false_2 _ Hg).
    unfold Timers.advance. destruct (Timers.run_due now (Timers.pending l) (Timers.view l)).
    simpl. rewrite app_nil_r. reflexivity.
Qed.

Lemma typing_indicator_timers_witness :
  let l1 := Timers.user_typing room1 0 "bob" "g1" (Timers.start Chat.initial) in
  let l2 := Timers.user_typing room1 2000 "bob" "g1" l1 in
  Timers.shown 2500 l2 = "bob"%string /\ Timers.shown 3000 l2 = ""%string.
Proof.
  cbv zeta.
  pose proof (typing_indicator_timers room1 Chat.initial "bob" "bob" 0 2000
                ltac:(lia)) as (_ & _ & _ & Hshow & Hclear & _).
  split; [apply Hshow | apply Hclear]; lia.
Defined.

(** ** The signed-URL map *)

Section ResolverFacts.
Import SignedURLs.
Variable fetch : nat -> string -> response.

Lemma wanted_cons_wanted (u : string) (rest : list (option string)) :
  Js.nonempty u = true -> wanted (Some u :: rest) = u :: wanted rest.
Proof. intros H. unfold wanted. simpl. rewrite H. reflexivity. Qed.

Lemma wanted_cons_skipped (m : option string) (rest : list (option string)) :
  match m with Some u => Js.nonempty u = false | None => True end ->
  wanted (m :: rest) = wanted rest.
Proof.
  unfold wanted. destruct m as [u|]; simpl; [|reflexivity].
  intros ->. reflexivity.
Qed.

(** Reading an own property after an assignment. *)
Lemma lookup_assign (key k : string) (value : option string)
    (object : gmap string (option string)) :
  assign key value object !! k
  = if decide (key = k /\ key <> "__proto__"%string) then Some value
    else object !! k.
Proof.
  unfold assign. destruct (String.eqb_spec key "__proto__") as [Hp|Hp].
  - rewrite decide_False by tauto. reflexivity.
  - destruct (decide (key = k)) as [->|Hne].
    + rewrite decide_True by tauto. apply lookup_insert_eq.
    + rewrite decide_False by tauto. apply lookup_insert_ne, Hne.
Qed.

(** A run that completes has had every request answered, and its map is
    the initial one overwritten at every wanted reference a plain object
    can hold. *)
Lemma fetch_loop_done (l : list (option string)) :
  forall (n : nat) (urls m : gmap string (option string)),
    fetch_loop fetch n urls l = Done m ->
    (forall i k, wanted l !! i = Some k ->
                 exists v, fetch (n + i)%nat (key_of k) = Json v)
    /\ (forall k, k ∉ wanted l \/ k = "__proto__"%string -> m !! k = urls !! k)
    /\ (forall k, k ∈ wanted l -> k <> "__proto__"%string ->
          exists i v, wanted l !! i = Some k
                      /\ fetch (n + i)%nat (key_of k) = Json v
                      /\ m !! k = Some v).
Proof.
  induction l as [|[u|] rest IH]; intros n urls m Hrun; simpl in Hrun.
  - injection Hrun as <-. split; [intros i k H; inversion H|].
    split; [reflexivity|]. intros k H. inversion H.
  - destruct (Js.nonempty u) eqn:Hu.
    + rewrite (wanted_cons_wanted u rest Hu).
      destruct (fetch n (key_of u)) as [| |v] eqn:Hf; try discriminate.
      destruct (IH _ _ _ Hrun) as (Hall & Hout & Hin).
      split; [|split].
      * intros [|i] k Hk; simpl in Hk.
        -- injection Hk as <-. rewrite Nat.add_0_r. eauto.
        -- rewrite <- Nat.add_succ_comm. apply Hall, Hk.
      * intros k Hk. rewrite Hout, lookup_assign.
        -- apply decide_False. intros [-> Hp].
           destruct Hk as [Hk|Hk]; [|contradiction].
           apply Hk. apply list_elem_of_here.
        -- destruct Hk as [Hk|Hk]; [left|right; exact Hk].
           intros Hr. apply Hk. apply list_elem_of_further, Hr.
      * intros k Hk Hp.
        destruct (decide (k ∈ wanted rest)) as [Hr|Hr].
        -- destruct (Hin k Hr Hp) as (i & v' & Hi & Hfi & Hm).
           exists (S i), v'. rewrite <- Nat.add_succ_comm. auto.
        -- apply elem_of_cons in Hk as [->|Hk]; [|contradiction].
           exists 0%nat, v. rewrite Nat.add_0_r.
           split; [reflexivity|]. split; [exact Hf|].
           rewrite (Hout u (or_introl Hr)), lookup_assign.
           apply decide_True. auto.
    + rewrite wanted_cons_skipped by exact Hu. apply IH, Hrun.
  - rewrite wanted_cons_skipped by exact I. apply IH, Hrun.
Qed.

(** A run whose requests are all answered completes. *)
Lemma fetch_loop_answered (l : list (option string)) :
  forall (n : nat) (urls : gmap string (option string)),
    (forall i k, wanted l !! i = Some k ->
                 exists v, fetch (n + i)%nat (key_of k) = Json v) ->
    exists m, fetch_loop fetch n urls l = Done m.
Proof.
  induction l as [|[u|] rest IH]; intros n urls Hall; simpl.
  - eauto.
  - destruct (Js.nonempty u) eqn:Hu.
    + rewrite (wanted_cons_wanted u rest Hu) in Hall.
      destruct (Hall 0%nat u eq_refl) as [v Hv].
      rewrite Nat.add_0_r in Hv. rewrite Hv.
      apply IH. intros i k Hk. rewrite Nat.add_succ_comm. apply Hall. exact Hk.
    + rewrite wanted_cons_skipped in Hall by exact Hu. apply IH, Hall.
  - rewrite wanted_cons_skipped in Hall by exact I. apply IH, Hall.
Qed.

End ResolverFacts.

(** C9, as stated, fails: when the request for one reference is rejected,
    [fetchSignedUrls] ends there, [setSignedUrls] is never called, and the
    previous map stays: the other reference gets no URL in this cycle and
    the stale entry is still there. *)
Lemma signed_urls_counterexample :
  let cycle := SignedURLs.useSignedURLs a_fails [Some ref_a; Some ref_b] previous_map in
  a_fails 1%nat (SignedURLs.key_of ref_b) = SignedURLs.Json (Some "signed:b.png"%string)
  /\ cycle !! ref_b = None
  /\ cycle !! ref_old = Some (Some "signed:old.png"%string)
  /\ cycle = previous_map.
Proof. cbv zeta. repeat split. Qed.

(** C9, amended: a recomputation builds a new map starting from the empty
    one and replaces the previous map only when every one of its requests
    has been answered.  In that case the new map does not depend on the
    previous one: it has an entry exactly for the references that are
    present, not empty and not ["__proto__"] (a plain object stores nothing
    under that name), and the entry of a reference is what a request of
    this run for that reference's key returned (a missing [signedUrl] is
    stored as [undefined]).  When a request is rejected or never answered,
    nothing is replaced: the previous map stays as it was, whatever the
    other requests would have returned. *)
Theorem signed_urls_rebuilt (fetch : nat -> string -> SignedURLs.response)
    (mediaUrls : list (option string)) (signedUrls : gmap string (option string)) :
  let refs := SignedURLs.wanted mediaUrls in
  ((forall i k, refs !! i = Some k ->
                exists v, fetch i (SignedURLs.key_of k) = SignedURLs.Json v)
   <-> exists urls, SignedURLs.fetchSignedUrls fetch mediaUrls = SignedURLs.Done urls)
  /\ (forall urls,
        SignedURLs.fetchSignedUrls fetch mediaUrls = SignedURLs.Done urls ->
        SignedURLs.useSignedURLs fetch mediaUrls signedUrls = urls
        /\ (forall k, k ∉ refs \/ k = "__proto__"%string -> urls !! k = None)
        /\ (forall k, k ∈ refs -> k <> "__proto__"%string ->
              exists i v, refs !! i = Some k
                          /\ fetch i (SignedURLs.key_of k) = SignedURLs.Json v
                          /\ urls !! k = Some v))
  /\ ((forall urls, SignedURLs.fetchSignedUrls fetch mediaUrls <> SignedURLs.Done urls) ->
      SignedURLs.useSignedURLs fetch mediaUrls signedUrls = signedUrls).
Proof.
  cbv zeta. unfold SignedURLs.useSignedURLs, SignedURLs.fetchSignedUrls.
  split; [split|split].
  - intros Hall. apply fetch_loop_answered. exact Hall.
  - intros [urls Hrun]. apply (fetch_loop_done fetch _ _ _ _ Hrun).
  - intros urls Hrun. rewrite Hrun. split; [reflexivity|].
    destruct (fetch_loop_done fetch _ _ _ _ Hrun) as (_ & Hout & Hin).
    split; [|exact Hin].
    intros k Hk. rewrite (Hout k Hk). apply lookup_empty.
  - intros Hnot.
    destruct (SignedURLs.fetch_loop fetch 0 ∅ mediaUrls) as [urls| |];
      [destruct (Hnot urls eq_refl) | reflexivity | reflexivity].
Qed.

Lemma signed_urls_rebuilt_witness :
  SignedURLs.useSignedURLs all_answered
    [Some ref_a; None; Some ""%string; Some "__proto__"%string; Some ref_b] previous_map
  = {[ ref_a := Some "signed:a.png"%string; ref_b := Some "signed:b.png"%string ]}.
Proof.
  refine (proj1 (proj1 (proj2
    (signed_urls_rebuilt all_answered
       [Some ref_a; None; Some ""%string; Some "__proto__"%string; Some ref_b]
       previous_map)) _ _)).
  reflexivity.
Defined.

(** ** Completions that arrive after the group has changed *)

Section LifecycleFacts.
Import Chat App.
Context {C : Codec.CryptoJS}.
Variables (me : User.t) (tok : string).

Lemma resume_props (c : Completion) (i : Instance) : props (resume c i) = props i.
Proof. destruct c; reflexivity. Qed.

Lemma arrival_props (msg : Message.t) (i : Instance) :
  props (arrival msg i).1 = props i.
Proof.
  unfold arrival. destruct (on_chat_message (props i) (state i) msg). reflexivity.
Qed.

Lemma boot_coherent : coherent boot.
Proof. split; [intros n g H; inversion H | reflexivity]. Qed.

Lemma step_coherent (w : World) (e : Event) :
  coherent w -> coherent (step me tok w e).
Proof.
  intros Hw. pose proof Hw as [Hiss Hchat]. destruct e as [g| |msg|f|n c]; simpl.
  - destruct (activeGroup w) as [g0|] eqn:Hact; [exact Hw|].
    split; simpl.
    + intros n g' Hin. apply elem_of_app in Hin as [Hin|Hin].
      * apply Hiss in Hin. lia.
      * apply list_elem_of_singleton in Hin. injection Hin as -> ->. lia.
    + split; [lia|]. split; [reflexivity|].
      intros g' Hin. apply elem_of_app in Hin as [Hin|Hin].
      * apply Hiss in Hin. lia.
      * apply list_elem_of_singleton in Hin. injection Hin as ->. reflexivity.
  - split; [exact Hiss | reflexivity].
  - destruct (chat w) as [[n i]|] eqn:Hc; [|exact Hw].
    pose proof (arrival_props msg i) as Hp.
    destruct (arrival msg i) as [i' fx]. simpl in Hp.
    destruct Hchat as (Hn & Hact & Hown).
    assert (Hnew : forall m g, (m, g) ∈ match fx with
                                       | [] => []
                                       | _ :: _ => [(n, group_id (props i))]
                                       end ->
                               m = n /\ g = group_id (props i)).
    { intros m g Hin. destruct fx; [inversion Hin|].
      apply list_elem_of_singleton in Hin. injection Hin as -> ->. auto. }
    split; simpl.
    + intros m g Hin. apply elem_of_app in Hin as [Hin|Hin]; [eauto|].
      apply Hnew in Hin as [-> _]. exact Hn.
    + rewrite Hp. split; [exact Hn|]. split; [exact Hact|].
      intros g Hin. apply elem_of_app in Hin as [Hin|Hin]; [auto|].
      apply Hnew in Hin as [_ ->]. reflexivity.
  - destruct (chat w) as [[n i]|] eqn:Hc; [|exact Hw].
    destruct Hchat as (Hn & Hact & Hown).
    split; simpl.
    + intros m g Hin. apply elem_of_app in Hin as [Hin|Hin]; [eauto|].
      apply list_elem_of_singleton in Hin. injection Hin as -> _. exact Hn.
    + split; [exact Hn|]. split; [exact Hact|].
      intros g Hin. apply elem_of_app in Hin as [Hin|Hin]; [auto|].
      apply list_elem_of_singleton in Hin. injection Hin as ->. reflexivity.
  - destruct (chat w) as [[m i]|] eqn:Hc; [|exact Hw].
    case_bool_decide; [|exact Hw].
    split; [exact Hiss|]. simpl. rewrite resume_props. exact Hchat.
Qed.

Lemma foldl_coherent (events : list Event) : forall w,
  coherent w -> coherent (foldl (step me tok) w events).
Proof.
  induction events as [|e rest IH]; intros w Hw; simpl; [exact Hw|].
  apply IH, step_coherent, Hw.
Qed.

Lemma run_coherent (events : list Event) : coherent (run me tok events).
Proof. apply foldl_coherent, boot_coherent. Qed.

(** In a coherent world a completion started for another group than the
    active one belongs to an instance that is no longer mounted. *)
Lemma stale_resume_ignored (w : World) (n : nat) (g g2 : string) (c : Completion) :
  coherent w ->
  (n, g) ∈ issued w -> activeGroup w = Some g2 -> g <> g2 ->
  step me tok w (Resumes n c) = w.
Proof.
  intros [_ Hchat] Hin Hact Hne. simpl.
  destruct (chat w) as [[m i]|]; [|reflexivity].
  destruct Hchat as (_ & Hact' & Hown).
  case_bool_decide as Hnm; [|reflexivity].
  subst m. apply Hown in Hin. congruence.
Qed.

(** While no [Back] occurs, the mounted instance stays mounted and only
    its own events and completions act on it. *)
Lemma foldl_session (post : list Event) : forall (w : World) (n : nat) (i : Instance),
  chat w = Some (n, i) ->
  is_Some (activeGroup w) ->
  Forall (fun e => e <> Back) post ->
  chat (foldl (step me tok) w post) = Some (n, foldl (session_step n) i post).
Proof.
  induction post as [|e rest IH]; intros w n i Hc Hact Hnb; [exact Hc|].
  apply Forall_cons in Hnb as [He Hrest]. simpl foldl.
  assert (Hstep : chat (step me tok w e) = Some (n, session_step n i e)
                  /\ is_Some (activeGroup (step me tok w e))).
  { destruct e as [g| |msg|f|m c]; simpl.
    - destruct Hact as [g0 Hg0]. rewrite Hg0. split; [exact Hc | eauto].
    - congruence.
    - rewrite Hc. destruct (arrival msg i) as [i' fx]. simpl. auto.
    - rewrite Hc. simpl. auto.
    - rewrite Hc. case_bool_decide; simpl; [auto|]. split; [exact Hc | exact Hact]. }
  destruct Hstep as [Hc' Hact']. apply IH; assumption.
Qed.

End LifecycleFacts.

(** C5: a completion that arrives after the active group has changed is
    dropped.  After any sequence of events of the application, the
    completion of a request that was started while another group than the
    active one was shown changes nothing at all: neither the media map nor
    the suggestion list nor any other part of what the active group shows.
    The mounted view shows the active group and has started requests for
    that group only, and every request started before a group is entered
    belongs to a view mounted earlier.  The view of a group that is entered
    starts with an empty log, media map and suggestion list, and from then
    on its state is made by its own events and by the completions of its
    own requests only, whatever happened before it was entered. *)
Theorem stale_completion_discarded (C : Codec.CryptoJS) (me : User.t) (tok : string)
    (events : list App.Event) :
  let w := App.run me tok events in
  (forall n g g2 c,
      (n, g) ∈ App.issued w ->
      App.activeGroup w = Some g2 ->
      g <> g2 ->
      App.step me tok w (App.Resumes n c) = w)
  /\ (forall n i,
        App.chat w = Some (n, i) ->
        App.activeGroup w = Some (Chat.group_id (App.props i))
        /\ (forall g, (n, g) ∈ App.issued w -> g = Chat.group_id (App.props i)))
  /\ (forall n g, (n, g) ∈ App.issued w -> (n < App.mounted w)%nat)
  /\ (forall g2 post,
        App.activeGroup w = None ->
        Forall (fun e => e <> App.Back) post ->
        App.state (App.mount me tok g2) = Chat.initial
        /\ App.signedUrls (App.mount me tok g2) = ∅
        /\ App.chat (foldl (App.step me tok) (App.step me tok w (App.EnterGroup g2)) post)
           = Some (App.mounted w,
                   foldl (App.session_step (App.mounted w)) (App.mount me tok g2) post)).
Proof.
  cbv zeta. pose proof (run_coherent me tok events) as Hw.
  split.
  { intros n g g2 c. apply stale_resume_ignored. exact Hw. }
  split.
  { intros n i Hc. destruct Hw as [_ Hchat]. rewrite Hc in Hchat. tauto. }
  split.
  { apply Hw. }
  intros g2 post Hact Hnb.
  split; [reflexivity|]. split; [reflexivity|].
  apply foldl_session; [| |exact Hnb]; simpl; rewrite Hact; simpl; eauto.
Qed.

Lemma stale_completion_discarded_witness :
  let w := App.run (C := Codec.mirror) alice "t"
             [App.EnterGroup "g1"; App.Arrival (incoming "m2" bob "hello");
              App.Back; App.EnterGroup "g2"] in
  App.step (C := Codec.mirror) alice "t" w
    (App.Resumes 0 (App.RepliesResolved [Js.lit "ok"])) = w.
Proof.
  cbv zeta.
  refine (proj1
    (stale_completion_discarded Codec.mirror alice "t"
       [App.EnterGroup "g1"; App.Arrival (incoming "m2" bob "hello");
        App.Back; App.EnterGroup "g2"]) 0%nat "g1" "g2" _ _ _ _).
  - apply (bool_decide_unpack _). vm_compute. exact I.
  - reflexivity.
  - discriminate.
Defined.

(* ===================================================================== *)
(** * Further properties of the code *)
(* ===================================================================== *)

(** ** Sending and receiving *)

Section SendFacts.
Import Codec Chat Tracker.
Context {C : CryptoJS}.
Variable P : Props.

Lemma blank_false_nonempty (s : list N) : Js.blank s = false -> s <> [].
Proof. intros H ->. discriminate. Qed.

(** The connected branch of [sendMessage], read off at once. *)
Lemma sendMessage_connected (env : SendEnv) (st : State) (messageText : list N)
    (media : option string * option string) (c : list N) :
  Js.blank messageText = false ->
  socket_connected env = true ->
  (upload_selected env st).2 = Ok media ->
  encryptMessage (salt env) messageText = Ok c ->
  let message :=
    {| Message.id := fresh_id env; Message.user := Some (user P);
       Message.text := c; Message.time := clock_time env;
       Message.mediaUrl := media.1; Message.mediaType := media.2;
       Message.readBy := None; Message.groupId := Some (group_id P) |} in
  sendMessage P env st messageText
  = ({| messages := messages st ++ [Message.with_text message messageText];
        newMessage := []; typingUser := typingUser st; file := None;
        processedMessages := {[ fresh_id env ]} ∪ processedMessages st;
        smartReplies := [] |},
     (upload_selected env st).1 ++ [EmitChatMessage message; ScrollToBottom],
     Ok tt).
Proof.
  intros Hb Hc Hup He. cbv zeta. unfold sendMessage.
  rewrite truthy_trim, Hb. simpl negb. cbv iota.
  destruct (upload_selected env st) as [fx r]. simpl in Hup. subst r.
  destruct media as [mediaUrl mediaType]. rewrite He, Hc. reflexivity.
Qed.

(** Whatever [sendMessage] emits on the channel has been registered and
    carries the view's group. *)
Lemma sendMessage_emit_inv (env : SendEnv) (st : State) (messageText : list N)
    (m : Message.t) :
  EmitChatMessage m ∈ (sendMessage P env st messageText).1.2 ->
  Message.id m ∈ processedMessages (sendMessage P env st messageText).1.1
  /\ Message.groupId m = Some (group_id P)
  /\ Message.user m = Some (user P).
Proof.
  unfold sendMessage.
  assert (Hup : forall e, e ∈ (upload_selected env st).1 -> exists f, e = UploadMedia f).
  { unfold upload_selected. destruct (file st) as [f|]; simpl.
    - intros e He. apply list_elem_of_singleton in He. eauto.
    - intros e He. inversion He. }
  destruct (Js.truthy (Js.trim messageText)); [|intros H; inversion H].
  destruct (upload_selected env st) as [fx [[mediaUrl mediaType]|e0]]; simpl in *.
  - destruct (encryptMessage (salt env) messageText) as [c|e1]; simpl.
    + destruct (socket_connected env); simpl.
      * intros H. apply elem_of_app in H as [H|H].
        -- apply Hup in H as [f Hf]. discriminate.
        -- apply elem_of_cons in H as [H|H].
           ++ injection H as ->. simpl. split; [|auto].
              apply elem_of_union. left. apply elem_of_singleton. reflexivity.
           ++ apply list_elem_of_singleton in H. discriminate.
      * intros H. apply elem_of_app in H as [H|H].
        -- apply Hup in H as [f Hf]. discriminate.
        -- apply list_elem_of_In in H. simpl in H. intuition discriminate.
    + intros H. apply Hup in H as [f Hf]. discriminate.
  - intros H. apply Hup in H as [f Hf]. discriminate.
Qed.

Lemma deliver_cons (st : State) (msg : Message.t) (rest : list Message.t) :
  deliver P st (msg :: rest) = deliver P (on_chat_message P st msg).1 rest.
Proof. reflexivity. Qed.

Lemma on_chat_message_processed_mono (st : State) (msg : Message.t) (x : string) :
  x ∈ processedMessages st -> x ∈ processedMessages (on_chat_message P st msg).1.
Proof.
  intros Hx. unfold on_chat_message.
  destruct (bool_decide (Message.groupId msg = Some (group_id P))
            && negb (bool_decide (Message.id msg ∈ processedMessages st))); simpl.
  - apply elem_of_union. right. exact Hx.
  - exact Hx.
Qed.

Lemma deliver_processed_mono (l : list Message.t) : forall (st : State) (x : string),
  x ∈ processedMessages st -> x ∈ processedMessages (deliver P st l).
Proof.
  induction l as [|msg rest IH]; intros st x Hx; [exact Hx|].
  rewrite deliver_cons. apply IH, on_chat_message_processed_mono, Hx.
Qed.

(** After a run, every arrival of the run that was for the view's group
    has its id in the processed set. *)
Lemma deliver_registers (l : list Message.t) : forall (st : State) (msg : Message.t),
  msg ∈ l -> on_channel P msg -> Message.id msg ∈ processedMessages (deliver P st l).
Proof.
  induction l as [|m rest IH]; intros st msg Hin Hg; [inversion Hin|].
  rewrite deliver_cons. apply elem_of_cons in Hin as [->|Hin]; [|apply IH; assumption].
  apply deliver_processed_mono.
  destruct (decide (Message.id m ∈ processedMessages st)) as [Hp|Hp].
  - apply on_chat_message_processed_mono, Hp.
  - rewrite (proj2 (on_chat_message_fresh P st m Hg Hp)).
    apply elem_of_union. left. apply elem_of_singleton. reflexivity.
Qed.

(** A run in which every arrival is for another group or has a processed
    id changes nothing. *)
Lemma deliver_nothing_new (l : list Message.t) (st : State) :
  (forall msg, msg ∈ l -> on_channel P msg -> Message.id msg ∈ processedMessages st) ->
  deliver P st l = st.
Proof.
  induction l as [|m rest IH]; intros Hall; [reflexivity|].
  rewrite deliver_cons.
  assert (Hm : on_chat_message P st m = (st, [])).
  { destruct (decide (on_channel P m)) as [Hg|Hg].
    - apply on_chat_message_duplicate, Hall; [left | exact Hg].
    - apply on_chat_message_other_group, Hg. }
  rewrite Hm. simpl. apply IH. intros msg Hin. apply Hall. right. exact Hin.
Qed.

End SendFacts.

(** What the cipher's contract gives for a text that is not empty. *)
Lemma decrypt_encrypt_text (C : Codec.CryptoJS) (L : Codec.lawful C)
    (salt : N) (x : list N) :
  Js.well_formed x = true -> x <> [] ->
  exists c, Codec.encryptMessage salt x = Codec.Ok c
            /\ Js.startsWith Codec.ENC c = true
            /\ Codec.decryptMessage c = x.
Proof.
  intros Hx Hne.
  destruct (L salt x Codec.AES_KEY Hx) as (c0 & w & He & Hd & Hu).
  exists (Codec.ENC ++ c0). unfold Codec.encryptMessage. rewrite He.
  split; [reflexivity|]. split; [apply startsWith_app|].
  rewrite (decrypt_tagged _ _ _ Hd Hu), truthy_nonempty; auto.
Qed.

(** X1: a text sent on a connected socket reaches the other members as it
    was typed.  With a lawful cipher, for a text that is not blank and has
    a UTF-8 encoding, [sendMessage] returns normally and emits exactly one
    ['chat message'], whose text carries the tag ["ENC:"]; the sender's
    log gains that message with the typed text in place of the encoded
    one; and a view of the same group that has not processed the id gains,
    when the message arrives, the very same entry. *)
Theorem send_receive_roundtrip (C : Codec.CryptoJS) (L : Codec.lawful C)
    (P : Chat.Props) (env : Chat.SendEnv) (st : Chat.State)
    (messageText : list N) (media : option string * option string) :
  Js.blank messageText = false ->
  Js.well_formed messageText = true ->
  Chat.socket_connected env = true ->
  (Chat.upload_selected env st).2 = Codec.Ok media ->
  let sent := Chat.sendMessage P env st messageText in
  exists m,
    sent.2 = Codec.Ok tt
    /\ sent.1.2 = (Chat.upload_selected env st).1 ++ [Chat.EmitChatMessage m; Chat.ScrollToBottom]
    /\ Js.startsWith Codec.ENC (Message.text m) = true
    /\ Message.id m = Chat.fresh_id env
    /\ Message.mediaUrl m = media.1
    /\ Chat.messages sent.1.1 = Chat.messages st ++ [Message.with_text m messageText]
    /\ (forall P2 st2,
          Chat.group_id P2 = Chat.group_id P ->
          Message.id m ∉ Chat.processedMessages st2 ->
          Chat.messages (Chat.on_chat_message P2 st2 m).1
          = Chat.messages st2 ++ [Message.with_text m messageText]).
Proof.
  intros Hb Hwf Hc Hup. cbv zeta.
  destruct (decrypt_encrypt_text C L (Chat.salt env) messageText Hwf
              (blank_false_nonempty _ Hb)) as (c & He & Htag & Hdec).
  rewrite (sendMessage_connected P env st messageText media c Hb Hc Hup He).
  eexists. simpl.
  split; [reflexivity|]. split; [reflexivity|]. split; [exact Htag|].
  split; [reflexivity|]. split; [reflexivity|]. split; [reflexivity|].
  intros P2 st2 Hg Hn.
  match goal with
  | |- context [Chat.on_chat_message P2 st2 ?m] =>
      assert (Hch : Tracker.on_channel P2 m)
        by (unfold Tracker.on_channel; simpl; rewrite Hg; reflexivity);
      rewrite (proj1 (on_chat_message_fresh P2 st2 m Hch Hn))
  end.
  unfold Tracker.entry. simpl. rewrite Hdec. reflexivity.
Qed.

Lemma send_receive_roundtrip_witness :
  let sent := Chat.sendMessage (C := Codec.mirror) room1 online with_photo (Js.lit "hi") in
  exists m,
    sent.2 = Codec.Ok tt
    /\ sent.1.2 = (Chat.upload_selected online with_photo).1
                  ++ [Chat.EmitChatMessage m; Chat.ScrollToBottom]
    /\ Js.startsWith Codec.ENC (Message.text m) = true
    /\ Message.id m = Chat.fresh_id online
    /\ Message.mediaUrl m = photo_media.1
    /\ Chat.messages sent.1.1
       = Chat.messages with_photo ++ [Message.with_text m (Js.lit "hi")]
    /\ (forall P2 st2,
          Chat.group_id P2 = Chat.group_id room1 ->
          Message.id m ∉ Chat.processedMessages st2 ->
          Chat.messages (Chat.on_chat_message (C := Codec.mirror) P2 st2 m).1
          = Chat.messages st2 ++ [Message.with_text m (Js.lit "hi")]).
Proof.
  apply (send_receive_roundtrip Codec.mirror mirror_lawful room1 online with_photo
           (Js.lit "hi") photo_media); reflexivity.
Defined.

(** X2: the view never shows its own message twice.  Whatever
    [sendMessage] emits on the channel is ignored when the channel delivers
    it back: an arrival with the id of an emitted message leaves the state
    that [sendMessage] produced as it is and has no effect. *)
Theorem own_echo_ignored (C : Codec.CryptoJS) (P : Chat.Props) (env : Chat.SendEnv)
    (st : Chat.State) (messageText : list N) (m echo : Message.t) :
  let sent := Chat.sendMessage P env st messageText in
  Chat.EmitChatMessage m ∈ sent.1.2 ->
  Message.id echo = Message.id m ->
  Chat.on_chat_message P sent.1.1 echo = (sent.1.1, []).
Proof.
  cbv zeta. intros Hin Hid.
  apply on_chat_message_duplicate. rewrite Hid.
  apply (sendMessage_emit_inv P env st messageText m Hin).
Qed.

Lemma own_echo_ignored_witness :
  let sent := Chat.sendMessage (C := Codec.mirror) room1 online with_photo (Js.lit "hi") in
  Chat.on_chat_message (C := Codec.mirror) room1 sent.1.1 hi_on_the_wire = (sent.1.1, []).
Proof.
  cbv zeta.
  apply (own_echo_ignored Codec.mirror room1 online with_photo (Js.lit "hi")
           hi_on_the_wire hi_on_the_wire).
  - apply list_elem_of_further, list_elem_of_here.
  - reflexivity.
Defined.

(** X3: delivering again what has been delivered changes nothing.  After
    a run of arrivals, a second run made of any of the same arrivals, in
    any order and any number of times, leaves the whole state (log,
    processed ids, suggestions) as the first run left it. *)
Theorem redelivery_changes_nothing (C : Codec.CryptoJS) (P : Chat.Props)
    (st : Chat.State) (arrivals again : list Message.t) :
  (forall msg, msg ∈ again -> msg ∈ arrivals) ->
  Chat.deliver P (Chat.deliver P st arrivals) again = Chat.deliver P st arrivals.
Proof.
  intros Hsub. apply deliver_nothing_new.
  intros msg Hin Hg. apply deliver_registers; [apply Hsub, Hin | exact Hg].
Qed.

Lemma redelivery_changes_nothing_witness :
  let a := incoming "a" bob "one" in
  let b := incoming "b" bob "two" in
  Chat.deliver (C := Codec.mirror) room1
    (Chat.deliver (C := Codec.mirror) room1 Chat.initial [a; b]) [b; a; b]
  = Chat.deliver (C := Codec.mirror) room1 Chat.initial [a; b].
Proof.
  cbv zeta.
  apply (redelivery_changes_nothing Codec.mirror room1 Chat.initial).
  intros msg Hin.
  repeat (apply elem_of_cons in Hin as [->|Hin];
          [first [apply list_elem_of_here
                 | apply list_elem_of_further, list_elem_of_here]|]).
  inversion Hin.
Defined.

(** ** Read receipts, once acknowledged *)

Section AckFacts.
Import Chat Tracker.
Variable P : Props.

Lemma mark_read_id (messageId reader : string) (msg : Message.t) :
  Message.id (mark_read messageId reader msg) = Message.id msg.
Proof. apply (mark_read_spec messageId reader msg). Qed.

(** An update can only turn an unread message into a read one. *)
Lemma unread_mark_read (messageId reader : string) (msg : Message.t) :
  unread P (mark_read messageId reader msg) = true -> unread P msg = true.
Proof.
  destruct (mark_read_spec messageId reader msg) as [Hs Hr].
  destruct Hs as (_ & Hu & _).
  unfold unread. rewrite Hu. destruct (Message.user msg) as [author|]; [|auto].
  intros H. apply andb_true_iff in H as [H1 H2]. rewrite H1. simpl.
  apply negb_true_iff in H2. apply negb_true_iff.
  destruct (includes (Message.readBy msg) (currentUser P)) eqn:Hi; [|reflexivity].
  apply includes_readers in Hi.
  assert (Hin : currentUser P ∈ readers (mark_read messageId reader msg)).
  { destruct Hr as [->|(_ & _ & ->)]; [exact Hi|]. apply elem_of_app. auto. }
  apply includes_readers in Hin. congruence.
Qed.

Lemma receipts_sublist (messageId reader : string) (l : list Message.t) :
  sublist
    (map (fun msg => EmitReadReceipt (Message.id msg) (currentUser P) (group_id P))
         (filter (fun msg => unread P msg = true) (map (mark_read messageId reader) l)))
    (map (fun msg => EmitReadReceipt (Message.id msg) (currentUser P) (group_id P))
         (filter (fun msg => unread P msg = true) l)).
Proof.
  induction l as [|m rest IH]; simpl; [constructor|].
  rewrite !filter_cons.
  destruct (decide (unread P (mark_read messageId reader m) = true)) as [Hu|Hu].
  - rewrite decide_True by (eapply unread_mark_read; exact Hu).
    simpl. rewrite mark_read_id. apply sublist_skip, IH.
  - destruct (decide (unread P m = true)); [apply sublist_cons|]; exact IH.
Qed.

(** Once the current user is in the read-by set, the message is read. *)
Lemma unread_acknowledged (messageId : string) (msg : Message.t) :
  Message.id msg = messageId ->
  unread P (mark_read messageId (currentUser P) msg) = false.
Proof.
  intros Hid. unfold mark_read. rewrite (bool_decide_eq_true_2 _ Hid).
  destruct (includes (Message.readBy msg) (currentUser P)) eqn:Hi; simpl.
  - unfold unread. rewrite Hi.
    destruct (Message.user msg); [apply andb_false_r | reflexivity].
  - unfold unread. simpl.
    destruct (Message.user msg) as [author|]; [|reflexivity].
    rewrite (bool_decide_eq_true_2 (currentUser P ∈ _)); [apply andb_false_r|].
    apply elem_of_app. right. apply list_elem_of_singleton. reflexivity.
Qed.

End AckFacts.

(** X4: a ['messageRead'] update never makes the view emit a receipt it
    would not have emitted before: the receipts the effect emits after the
    update are a subsequence of those it emitted before it.  And once the
    update that names the current user for a message id has been handled
    for the view's group, the effect emits no receipt with that id any
    more. *)
Theorem read_receipts_settle (P : Chat.Props) (st : Chat.State)
    (messageId reader groupId : string) :
  sublist (Chat.read_receipt_effect P (Chat.on_messageRead P st messageId reader groupId))
          (Chat.read_receipt_effect P st)
  /\ (forall who g,
        Chat.EmitReadReceipt messageId who g
        ∉ Chat.read_receipt_effect P
            (Chat.on_messageRead P st messageId (Chat.currentUser P) (Chat.group_id P))).
Proof.
  split.
  - unfold Chat.on_messageRead, Chat.read_receipt_effect.
    case_bool_decide; [simpl; apply receipts_sublist | reflexivity].
  - intros who g Hin. apply receipt_inv in Hin as (msg & Hm & Hu & Heq).
    injection Heq as Hid _ _.
    unfold Chat.on_messageRead in Hm.
    rewrite bool_decide_eq_true_2 in Hm by reflexivity. simpl in Hm.
    apply list_elem_of_fmap in Hm as (m0 & -> & _).
    rewrite mark_read_id in Hid.
    rewrite (unread_acknowledged P messageId m0 (eq_sym Hid)) in Hu. discriminate.
Qed.

(** ** The read-by list holds no reader twice *)

Section ReadersFacts.
Import Chat Tracker.
Variable P : Props.

Lemma mark_read_NoDup (messageId reader : string) (msg : Message.t) :
  NoDup (readers msg) -> NoDup (readers (mark_read messageId reader msg)).
Proof.
  intros Hnd.
  destruct (mark_read_spec messageId reader msg) as [_ [->|(_ & Hn & ->)]]; [exact Hnd|].
  apply NoDup_app. split; [exact Hnd|]. split; [|apply NoDup_singleton].
  intros x Hx Hx'. apply list_elem_of_singleton in Hx'. subst x. contradiction.
Qed.

Lemma on_messageRead_NoDup (st : State) (messageId reader groupId : string) :
  (forall msg, msg ∈ messages st -> NoDup (readers msg)) ->
  forall msg, msg ∈ messages (on_messageRead P st messageId reader groupId) ->
              NoDup (readers msg).
Proof.
  intros Hall msg. unfold on_messageRead. case_bool_decide; [|apply Hall].
  simpl. intros Hin. apply list_elem_of_fmap in Hin as (m0 & -> & Hin).
  apply mark_read_NoDup, Hall, Hin.
Qed.

End ReadersFacts.

(** X5: the ['messageRead'] handler never records a reader twice.  If no
    read-by list of the log holds a reader twice, none does after any run
    of ['messageRead'] events, so a reader is named once under a message
    however often the channel repeats a receipt. *)
Theorem readers_stay_distinct (P : Chat.Props) (st : Chat.State)
    (reads : list (string * string * string)) :
  (forall msg, msg ∈ Chat.messages st -> NoDup (Tracker.readers msg)) ->
  forall msg, msg ∈ Chat.messages (Chat.deliver_reads P st reads) ->
              NoDup (Tracker.readers msg).
Proof.
  revert st. induction reads as [|[[mid reader] gid] rest IH]; intros st Hall.
  - exact Hall.
  - change (Chat.deliver_reads P st ((mid, reader, gid) :: rest))
      with (Chat.deliver_reads P (Chat.on_messageRead P st mid reader gid) rest).
    apply IH. apply on_messageRead_NoDup, Hall.
Qed.

Lemma readers_stay_distinct_witness :
  Forall (fun msg => NoDup (Tracker.readers msg))
    (Chat.messages
       (Chat.deliver_reads room1 two_unread
          [("m2", "alice", "g1"); ("m2", "alice", "g1"); ("m3", "carol", "g1")]%string)).
Proof.
  apply Forall_forall.
  apply (readers_stay_distinct room1 two_unread).
  intros msg Hin.
  repeat (apply elem_of_cons in Hin as [->|Hin]; [apply NoDup_nil; reflexivity|]).
  inversion Hin.
Defined.

(** ** The ids of the log stay distinct *)

Section RegisteredFacts.
Import Codec Chat Tracker View.
Context {C : CryptoJS}.
Variable P : Props.

Lemma registered_snoc (st st' : State) (msg : Message.t) :
  registered st ->
  Message.id msg ∉ processedMessages st ->
  messages st' = messages st ++ [msg] ->
  processedMessages st' = {[ Message.id msg ]} ∪ processedMessages st ->
  registered st'.
Proof.
  intros [Hnd Hreg] Hn Hm Hp. unfold registered. rewrite Hm, Hp. split.
  - rewrite map_app. apply NoDup_app. split; [exact Hnd|].
    split; [|apply NoDup_singleton].
    intros x Hx Hx'. apply list_elem_of_singleton in Hx'. subst x.
    apply list_elem_of_fmap in Hx as (m0 & Heq & Hin). apply Hn. rewrite Heq. auto.
  - intros m0 Hin. apply elem_of_app in Hin as [Hin|Hin].
    + apply elem_of_union. right. auto.
    + apply list_elem_of_singleton in Hin. subst m0.
      apply elem_of_union. left. apply elem_of_singleton. reflexivity.
Qed.

Lemma registered_same (st st' : State) :
  registered st ->
  map Message.id (messages st') = map Message.id (messages st) ->
  processedMessages st' = processedMessages st ->
  registered st'.
Proof.
  intros [Hnd Hreg] Hm Hp. unfold registered. rewrite Hm, Hp. split; [exact Hnd|].
  intros m0 Hin.
  assert (Hid : Message.id m0 ∈ map Message.id (messages st)).
  { rewrite <- Hm. apply list_elem_of_fmap. eauto. }
  apply list_elem_of_fmap in Hid as (m1 & -> & Hin1). auto.
Qed.

Lemma on_chat_message_registered (st : State) (msg : Message.t) :
  registered st -> registered (on_chat_message P st msg).1.
Proof.
  intros Hr.
  destruct (decide (on_channel P msg)) as [Hg|Hg];
    [|rewrite on_chat_message_other_group by exact Hg; exact Hr].
  destruct (decide (Message.id msg ∈ processedMessages st)) as [Hp|Hp];
    [rewrite on_chat_message_duplicate by exact Hp; exact Hr|].
  destruct (on_chat_message_fresh P st msg Hg Hp) as [Hm Hs].
  apply (registered_snoc st _ (entry msg)); assumption.
Qed.

Lemma on_messageRead_registered (st : State) (messageId reader groupId : string) :
  registered st -> registered (on_messageRead P st messageId reader groupId).
Proof.
  intros Hr. apply (registered_same st); [exact Hr| |].
  - unfold on_messageRead. case_bool_decide; [|reflexivity]. simpl.
    rewrite map_map. apply map_ext. intros m. apply mark_read_id.
  - unfold on_messageRead. case_bool_decide; reflexivity.
Qed.

(** What [sendMessage] does to the log and the processed ids. *)
Lemma sendMessage_state (env : SendEnv) (st : State) (messageText : list N) :
  let st' := (sendMessage P env st messageText).1.1 in
  st' = st
  \/ exists m, Message.id m = fresh_id env
               /\ messages st' = messages st ++ [m]
               /\ processedMessages st' = {[ fresh_id env ]} ∪ processedMessages st.
Proof.
  cbv zeta. unfold sendMessage.
  destruct (Js.truthy (Js.trim messageText)); [|left; reflexivity].
  destruct (upload_selected env st) as [fx [[mediaUrl mediaType]|e0]];
    [|left; reflexivity].
  destruct (encryptMessage (salt env) messageText) as [c|e1]; [|left; reflexivity].
  destruct (socket_connected env); [|left; reflexivity].
  right. eexists. split; [|split].
  2: reflexivity.
  - reflexivity.
  - reflexivity.
Qed.

Lemma step_registered (st : State) (e : Event) :
  registered st ->
  match e with Sends env _ => fresh_id env ∉ processedMessages st | _ => True end ->
  registered (step P st e).
Proof.
  intros Hr Hf. destruct e as [msg|mid reader gid|who gid| |replies| |env text]; simpl.
  - apply on_chat_message_registered, Hr.
  - apply on_messageRead_registered, Hr.
  - unfold on_user_typing. case_bool_decide; exact Hr.
  - exact Hr.
  - exact Hr.
  - exact Hr.
  - destruct (sendMessage_state env st text) as [->|(m & Hid & Hm & Hp)]; [exact Hr|].
    apply (registered_snoc st _ m); rewrite ?Hid; assumption.
Qed.

End RegisteredFacts.

(** X6: the dedup invariant behind the log.  If the ids of the log are
    pairwise distinct and all in the processed set, as they are in a new
    view, they still are after any run of arrivals, read receipts, typing
    signals and timeouts, suggestion results, key strokes and sends,
    provided every id that [sendMessage] generates is new when it is
    generated. *)
Theorem log_ids_stay_distinct (C : Codec.CryptoJS) (P : Chat.Props)
    (events : list View.Event) (st : Chat.State) :
  View.registered st ->
  View.fresh_sends P st events ->
  View.registered (foldl (View.step P) st events).
Proof.
  revert st. induction events as [|e rest IH]; intros st Hr Hf; [exact Hr|].
  simpl in Hf. destruct Hf as [He Hrest]. simpl.
  apply IH; [|exact Hrest]. apply step_registered; assumption.
Qed.

Lemma log_ids_stay_distinct_witness :
  View.registered
    (foldl (View.step (C := Codec.mirror) room1) Chat.initial
       [View.Arrives (incoming "a" bob "one");
        View.Sends online (Js.lit "hi");
        View.Arrives hi_on_the_wire;
        View.Read "a" "alice" "g1";
        View.Arrives (incoming "a" bob "one")]).
Proof.
  apply (log_ids_stay_distinct Codec.mirror room1).
  - split; [apply NoDup_nil; reflexivity | intros msg H; inversion H].
  - simpl. repeat split.
    apply (bool_decide_unpack _). vm_compute. exact I.
Defined.

(** X7: the fetched history is outside the dedup.  [fetchMessages]
    replaces the log and leaves the processed set as it is, so a message of
    the history that the channel delivers afterwards, its id not having
    been processed, is appended again and the log holds its id twice.  A
    failed fetch changes no state cell. *)
Theorem history_not_registered (C : Codec.CryptoJS) (P : Chat.Props)
    (st : Chat.State) (history : list Message.t) (msg : Message.t) :
  msg ∈ history ->
  Tracker.on_channel P msg ->
  Message.id msg ∉ Chat.processedMessages st ->
  let loaded := (View.fetchMessages (Codec.Ok history) st).1 in
  let after := (Chat.on_chat_message P loaded msg).1 in
  Chat.processedMessages loaded = Chat.processedMessages st
  /\ Chat.messages after = history ++ [Tracker.entry msg]
  /\ ~ NoDup (map Message.id (Chat.messages after))
  /\ (forall e, (View.fetchMessages (Codec.Throw e) st).1 = st).
Proof.
  intros Hin Hg Hn. cbv zeta.
  split; [reflexivity|].
  assert (Hm : Chat.messages
                 (Chat.on_chat_message P (View.fetchMessages (Codec.Ok history) st).1 msg).1
               = history ++ [Tracker.entry msg]).
  { exact (proj1 (on_chat_message_fresh P
                    (View.fetchMessages (Codec.Ok history) st).1 msg Hg Hn)). }
  split; [exact Hm|]. split; [|reflexivity].
  rewrite Hm, map_app. intros Hnd. apply NoDup_app in Hnd as (_ & Hdisj & _).
  apply (Hdisj (Message.id msg)).
  - apply list_elem_of_fmap. eauto.
  - simpl. apply list_elem_of_here.
Qed.

Lemma history_not_registered_witness :
  let a := incoming "a" bob "one" in
  Chat.messages
    (Chat.on_chat_message (C := Codec.mirror) room1
       (View.fetchMessages (Codec.Ok [a]) Chat.initial).1 a).1
  = [a; a].
Proof.
  cbv zeta.
  refine (proj1 (proj2
    (history_not_registered Codec.mirror room1 Chat.initial
       [incoming "a" bob "one"] (incoming "a" bob "one") _ _ _))).
  - apply list_elem_of_here.
  - reflexivity.
  - intros H. apply elem_of_empty in H. exact H.
Defined.

(** ** The lookup key of a media reference *)

Section KeyFacts.
Import Reference.

Lemma split_on_nonempty (sep : ascii) (s : string) : Js.split_on sep s <> [].
Proof.
  destruct s as [|c r]; simpl; [discriminate|].
  destruct (Ascii.eqb c sep); [discriminate|].
  destruct (Js.split_on sep r); discriminate.
Qed.

Lemma split_on_length (sep : ascii) (s : string) :
  length (Js.split_on sep s) = S (occurrences sep s).
Proof.
  induction s as [|c r IH]; simpl; [reflexivity|].
  destruct (Ascii.eqb c sep); simpl; [rewrite IH; reflexivity|].
  destruct (Js.split_on sep r) as [|h t] eqn:Hs; [destruct (split_on_nonempty _ _ Hs)|].
  simpl in *. exact IH.
Qed.

(** Up to the first separator. *)
Lemma split_on_app (sep : ascii) (a b : string) :
  occurrences sep a = 0%nat ->
  Js.split_on sep (String.append a (String sep b)) = a :: Js.split_on sep b.
Proof.
  induction a as [|c r IH]; simpl.
  - intros _. rewrite Ascii.eqb_refl. reflexivity.
  - destruct (Ascii.eqb c sep); [discriminate|].
    intros H. rewrite (IH H). reflexivity.
Qed.

Lemma join_cons (sep h : string) (t : list string) :
  t <> [] -> Js.join sep (h :: t) = String.append h (String.append sep (Js.join sep t)).
Proof. destruct t; [congruence | reflexivity]. Qed.

(** [s.split(sep).join(sep)] is [s]. *)
Lemma join_split_on (sep : ascii) (s : string) :
  Js.join (String sep EmptyString) (Js.split_on sep s) = s.
Proof.
  induction s as [|c r IH]; simpl Js.split_on; [reflexivity|].
  destruct (Ascii.eqb_spec c sep) as [->|Hne].
  - rewrite join_cons by apply split_on_nonempty. rewrite IH. reflexivity.
  - destruct (Js.split_on sep r) as [|h t] eqn:Hs; [destruct (split_on_nonempty _ _ Hs)|].
    destruct t as [|h' t'].
    + simpl in *. rewrite IH. reflexivity.
    + rewrite join_cons by discriminate.
      rewrite join_cons in IH by discriminate.
      rewrite <- IH. reflexivity.
Qed.

End KeyFacts.

(** X8: the key sent to the signing service.  For a reference of the form
    [scheme//host/key], where neither the scheme nor the host holds a
    slash, the key is [key] itself, whatever slashes it holds; for a
    reference with fewer than three slashes the key is the empty string. *)
Theorem key_of_reference (scheme host key mediaUrl : string) :
  (Reference.occurrences "/" scheme = 0%nat ->
   Reference.occurrences "/" host = 0%nat ->
   SignedURLs.key_of
     (String.append scheme (String.append "//" (String.append host (String "/" key))))
   = key)
  /\ (Reference.occurrences "/" mediaUrl < 3 ->
      SignedURLs.key_of mediaUrl = ""%string)%nat.
Proof.
  unfold SignedURLs.key_of. split.
  - intros Hs Hh.
    change (String.append "//" (String.append host (String "/" key)))
      with (String "/" (String.append "" (String "/" (String.append host (String "/" key))))).
    rewrite (split_on_app "/" scheme _ Hs).
    rewrite (split_on_app "/" "" _ eq_refl).
    rewrite (split_on_app "/" host _ Hh).
    simpl drop. apply join_split_on.
  - intros Hlt. rewrite drop_ge; [reflexivity|].
    rewrite split_on_length. lia.
Qed.

Lemma key_of_reference_witness :
  SignedURLs.key_of "https://bucket.s3.eu.amazonaws.com/albums/2024/cat.png"
  = "albums/2024/cat.png"%string
  /\ SignedURLs.key_of "cat.png" = ""%string.
Proof.
  split.
  - apply (proj1 (key_of_reference "https:" "bucket.s3.eu.amazonaws.com"
                    "albums/2024/cat.png" "")); reflexivity.
  - apply (proj2 (key_of_reference "" "" "" "cat.png")). simpl. lia.
Defined.

(** ** Repeated references and logs without media *)

Section LastWinsFacts.
Import SignedURLs.
Variable fetch : nat -> string -> response.

(** The entry of a reference is the answer to its last occurrence. *)
Lemma fetch_loop_last (l : list (option string)) :
  forall (n : nat) (urls m : gmap string (option string)),
    fetch_loop fetch n urls l = Done m ->
    forall i k,
      wanted l !! i = Some k ->
      k <> "__proto__"%string ->
      (forall j, (i < j)%nat -> wanted l !! j <> Some k) ->
      exists v, fetch (n + i)%nat (key_of k) = Json v /\ m !! k = Some v.
Proof.
  induction l as [|[u|] rest IH]; intros n urls m Hrun i k Hi Hp Hlast.
  - inversion Hi.
  - simpl in Hrun. destruct (Js.nonempty u) eqn:Hu.
    + rewrite (wanted_cons_wanted u rest Hu) in Hi, Hlast.
      destruct (fetch n (key_of u)) as [| |v] eqn:Hf; try discriminate.
      destruct i as [|i]; simpl in Hi.
      * injection Hi as <-. exists v. rewrite Nat.add_0_r. split; [exact Hf|].
        assert (Hnot : u ∉ wanted rest).
        { intros Hin. apply list_elem_of_lookup in Hin as [j Hj].
          apply (Hlast (S j)); [lia | exact Hj]. }
        destruct (fetch_loop_done fetch rest _ _ _ Hrun) as (_ & Hout & _).
        rewrite (Hout u (or_introl Hnot)), lookup_assign.
        apply decide_True. auto.
      * rewrite <- Nat.add_succ_comm. apply (IH _ _ _ Hrun i k Hi Hp).
        intros j Hj. apply (Hlast (S j)). lia.
    + rewrite wanted_cons_skipped in Hi, Hlast by exact Hu. eapply IH; eassumption.
  - simpl in Hrun. rewrite wanted_cons_skipped in Hi, Hlast by exact I.
    eapply IH; eassumption.
Qed.

(** Entries without a reference start no request. *)
Lemma fetch_loop_no_media (l : list (option string)) :
  wanted l = [] ->
  forall (n : nat) (urls : gmap string (option string)),
    fetch_loop fetch n urls l = Done urls.
Proof.
  induction l as [|[u|] rest IH]; intros Hw n urls; simpl.
  - reflexivity.
  - destruct (Js.nonempty u) eqn:Hu.
    + rewrite (wanted_cons_wanted u rest Hu) in Hw. discriminate.
    + rewrite wanted_cons_skipped in Hw by exact Hu. apply IH, Hw.
  - rewrite wanted_cons_skipped in Hw by exact I. apply IH, Hw.
Qed.

End LastWinsFacts.

(** X9: nothing is cached within a run.  In a run of [fetchSignedUrls]
    that completes, every occurrence of a reference has had its own
    request, and the entry of a reference other than ["__proto__"] is the
    answer to the request for its last occurrence; under ["__proto__"]
    the map holds no entry, whatever was answered.  When no entry of the
    list carries a reference, the run starts no request and completes with
    the empty map, whatever state the signing service is in. *)
Theorem signed_urls_last_answer (fetch : nat -> string -> SignedURLs.response)
    (mediaUrls : list (option string)) :
  (forall urls i k,
      SignedURLs.fetchSignedUrls fetch mediaUrls = SignedURLs.Done urls ->
      SignedURLs.wanted mediaUrls !! i = Some k ->
      k <> "__proto__"%string ->
      (forall j, (i < j)%nat -> SignedURLs.wanted mediaUrls !! j <> Some k) ->
      exists v, fetch i (SignedURLs.key_of k) = SignedURLs.Json v /\ urls !! k = Some v)
  /\ (forall urls,
        SignedURLs.fetchSignedUrls fetch mediaUrls = SignedURLs.Done urls ->
        urls !! "__proto__"%string = None)
  /\ (SignedURLs.wanted mediaUrls = [] ->
      SignedURLs.fetchSignedUrls fetch mediaUrls = SignedURLs.Done ∅).
Proof.
  split; [|split].
  - intros urls i k Hrun. apply (fetch_loop_last fetch mediaUrls 0 ∅ urls Hrun).
  - intros urls Hrun.
    destruct (fetch_loop_done fetch _ _ _ _ Hrun) as (_ & Hout & _).
    rewrite (Hout _ (or_intror eq_refl)). apply lookup_empty.
  - intros Hw. apply fetch_loop_no_media, Hw.
Qed.

Lemma signed_urls_last_answer_witness :
  (exists v, numbered_answers 2%nat (SignedURLs.key_of ref_a) = SignedURLs.Json v
             /\ ({[ ref_a := Some "answer 2"%string; ref_b := Some "answer 1"%string ]}
                  : gmap string (option string)) !! ref_a = Some v)
  /\ SignedURLs.fetchSignedUrls only_first_answered [None; Some ""%string; None]
     = SignedURLs.Done ∅.
Proof.
  split.
  - refine (proj1 (signed_urls_last_answer numbered_answers
                     [Some ref_a; Some ref_b; None; Some ref_a]) _ 2%nat ref_a _ _ _ _).
    + reflexivity.
    + reflexivity.
    + discriminate.
    + intros [|[|[|j]]] Hj; try lia; discriminate.
  - apply (signed_urls_last_answer only_first_answered [None; Some ""%string; None]).
    reflexivity.
Defined.

(** ** What a bubble shows of its media *)

Section RenderFacts.
Import SignedURLs View.





End RenderFacts.



(** ** The indicator after the last signal *)

Section ExpiryFacts.
Import Chat Timers.
Local Open Scope Z_scope.

Lemma run_due_app (now : Z) (a b : list Z) : forall st : State,
  run_due now (a ++ b) st
  = ((run_due now b (run_due now a st).1).1,
     (run_due now a st).2 ++ (run_due now b (run_due now a st).1).2).
Proof.
  induction a as [|d rest IH]; intros st; simpl.
  - destruct (run_due now b st). reflexivity.
  - destruct (d <=? now); [apply IH|].
    rewrite IH. destruct (run_due now rest st) as [s1 k1]. simpl.
    destruct (run_due now b s1). reflexivity.
Qed.

(** The timers that stay pending are not due. *)
Lemma run_due_kept (now : Z) (timers : list Z) : forall st : State,
  Forall (fun deadline => now < deadline) (run_due now timers st).2.
Proof.
  induction timers as [|d rest IH]; intros st; simpl; [constructor|].
  destruct (Z.leb_spec d now); [apply IH|].
  specialize (IH st). destruct (run_due now rest st). simpl in *.
  constructor; assumption.
Qed.

(** Timers that are not due leave the view alone. *)
Lemma run_due_none (now : Z) (timers : list Z) (st : State) :
  Forall (fun deadline => now < deadline) timers ->
  run_due now timers st = (st, timers).
Proof.
  intros H. induction H as [|d rest Hd _ IH]; simpl; [reflexivity|].
  destruct (Z.leb_spec d now); [lia|]. rewrite IH. reflexivity.
Qed.

End ExpiryFacts.

(** X11: the typing indicator always expires.  Whatever timers are
    pending and whatever the indicator showed, a typing signal for the
    view's group makes the indicator show the signalling user at once, and
    from 3000 ms after that signal on the indicator is clear as long as no
    other signal arrives. *)
Theorem typing_indicator_expires (P : Chat.Props) (now : Z) (who : string)
    (l : Timers.t) :
  let l' := Timers.user_typing P now who (Chat.group_id P) l in
  Timers.shown now l' = who
  /\ (forall t, (now + 3000 <= t)%Z -> Timers.shown t l' = ""%string).
Proof.
  cbv zeta. unfold Timers.user_typing, Timers.shown, Timers.advance, Chat.on_user_typing.
  rewrite bool_decide_eq_true_2 by reflexivity.
  pose proof (run_due_kept now (Timers.pending l) (Timers.view l)) as Hkept.
  destruct (Timers.run_due now (Timers.pending l) (Timers.view l)) as [st0 kept].
  simpl in *. split.
  - rewrite run_due_none; [reflexivity|].
    apply Forall_app. split; [exact Hkept|]. repeat constructor. lia.
  - intros t Ht. rewrite run_due_app. simpl.
    destruct (Z.leb_spec (now + 3000) t); [|lia].
    destruct (Timers.run_due t kept (Chat.setTypingUser who st0)) as [st1 keep1].
    reflexivity.
Qed.

(** ** The listeners on the shared socket *)

Section ListenerFacts.
Import Socket.

Lemma run_snoc (s : t) (events : list Event) (e : Event) :
  run s (events ++ [e]) = (step (run s events) e).1.
Proof. unfold run. rewrite foldl_app. reflexivity. Qed.

Lemma entered_snoc (events : list Event) (e : Event) :
  entered (events ++ [e])
  = entered events ++ match e with Setup _ g => [g] | _ => [] end.
Proof.
  unfold entered. rewrite omap_app. simpl. destruct e; reflexivity.
Qed.

Lemma on_connect_run (events : list Event) (s : t) :
  on_connect (run s events) = on_connect s ++ entered events.
Proof.
  induction events as [|e rest IH] using rev_ind.
  - simpl. rewrite app_nil_r. reflexivity.
  - rewrite run_snoc, entered_snoc, app_assoc, <- IH.
    destruct e; simpl; rewrite ?app_nil_r; reflexivity.
Qed.

End ListenerFacts.

(** X12: the listeners the effect leaves behind.  The ["connect"]
    listener of a view is never removed: after any run of set-ups,
    clean-ups and connections, a connection emits ["joinGroup"] for every
    group entered so far, in order, those that were left included.  The
    listeners of the three message events are all removed by a clean-up,
    so a view set up after one is the only one listening. *)
Theorem connect_listeners_accumulate (events : list Socket.Event) (tok g g' : string) :
  let s := Socket.run Socket.fresh events in
  (Socket.step s Socket.Connects).2 = map Socket.JoinGroup (Socket.entered events)
  /\ Socket.on_connect (Socket.step s (Socket.Cleanup g)).1 = Socket.entered events
  /\ (let s' := Socket.setup tok g' (Socket.step s (Socket.Cleanup g)).1 in
      Socket.on_chat_message s' = [g']
      /\ Socket.on_user_typing s' = [g']
      /\ Socket.on_messageRead s' = [g']
      /\ (Socket.step s' Socket.Connects).2
         = map Socket.JoinGroup (Socket.entered events ++ [g'])).
Proof.
  cbv zeta. simpl. rewrite on_connect_run. simpl.
  repeat split; reflexivity.
Qed.

(** ** The groups offered for joining *)

Section GroupFacts.
Import Groups.

Lemma existsb_id (g : Group) (myGroups : list Group) :
  existsb (fun mg => bool_decide (_id mg = _id g)) myGroups = true
  <-> exists mg, mg ∈ myGroups /\ _id mg = _id g.
Proof.
  rewrite existsb_exists. split; intros (mg & Hin & Hid); exists mg.
  - split; [apply list_elem_of_In, Hin|].
    apply bool_decide_eq_true in Hid. exact Hid.
  - split; [apply list_elem_of_In, Hin|].
    apply bool_decide_eq_true. exact Hid.
Qed.

End GroupFacts.

(** X13: the groups listed under "Other Groups".  A group is listed there
    exactly when it is among all the groups and no group of the user's own
    has its [_id]; the list keeps the order of all the groups. *)
Theorem other_groups_partition (allGroups myGroups : list Groups.Group) :
  (forall g, g ∈ Groups.otherGroups allGroups myGroups
             <-> g ∈ allGroups
                 /\ (forall mg, mg ∈ myGroups -> Groups._id mg <> Groups._id g))
  /\ sublist (Groups.otherGroups allGroups myGroups) allGroups.
Proof.
  unfold Groups.otherGroups. split.
  - intros g. rewrite list_elem_of_In, filter_In, <- list_elem_of_In.
    rewrite negb_true_iff, <- not_true_iff_false, existsb_id.
    split; intros [Hin Hno]; (split; [exact Hin|]).
    + intros mg Hmg Hid. apply Hno. eauto.
    + intros (mg & Hmg & Hid). apply (Hno mg Hmg Hid).
  - induction allGroups as [|g rest IH]; simpl; [constructor|].
    destruct (negb _); [apply sublist_skip | apply sublist_cons]; exact IH.
Qed.

(** ** The session across reloads *)

Section SessionFacts.
Import Codec Auth.
Context {J : Json}.
Hypothesis L : lawful J.

Lemma reload_in_sync (w : World) : in_sync w -> reload w = Ok w.
Proof.
  intros [(u & tok & Hu & Ht & Hs)|(Hu & Ht & Hs)]; unfold reload, restore; simpl.
  - rewrite Hs. destruct (L u tok) as [Htr Hp]. rewrite Htr, Hp. simpl.
    destruct w as [wu wt ws]. simpl in *. subst. reflexivity.
  - rewrite Hs. destruct w as [wu wt ws]. simpl in *. subst. reflexivity.
Qed.

Lemma step_in_sync (w : World) (e : Event) :
  in_sync w -> exists w', step w e = Ok w' /\ in_sync w'.
Proof.
  intros Hw. destruct e as [u tok| |]; simpl.
  - eexists. split; [reflexivity|]. left. exists u, tok. auto.
  - eexists. split; [reflexivity|]. right. auto.
  - exists w. split; [apply reload_in_sync, Hw | exact Hw].
Qed.

Lemma run_in_sync (events : list Event) : forall w,
  in_sync w -> exists w', run w events = Ok w' /\ in_sync w'.
Proof.
  induction events as [|e rest IH]; intros w Hw; simpl.
  - eauto.
  - destruct (step_in_sync w e Hw) as (w1 & -> & H1). simpl. apply IH, H1.
Qed.

End SessionFacts.

Lemma pairs_lawful : Auth.lawful Auth.pairs.
Proof. intros u tok. split; reflexivity. Qed.

(** X14: the session survives a reload and nothing else.  Starting from a
    browser without a stored session, after any sequence of logins,
    logouts and reloads the provider has not thrown, the user and the
    token are both set or both [null], the stored item is the one of that
    user and token, or absent when they are [null], and loading the page
    again gives the very same session. *)
Theorem session_survives_reload (J : Auth.Json) (L : Auth.lawful J)
    (events : list Auth.Event) :
  exists w,
    Auth.run Auth.first_visit events = Codec.Ok w
    /\ Auth.in_sync w
    /\ Auth.reload w = Codec.Ok w.
Proof.
  destruct (run_in_sync L events Auth.first_visit) as (w & Hrun & Hw).
  - right. auto.
  - exists w. split; [exact Hrun|]. split; [exact Hw|]. apply reload_in_sync; assumption.
Qed.

Lemma session_survives_reload_witness :
  exists w,
    Auth.run (J := Auth.pairs) Auth.first_visit
      [Auth.LogsIn bob "t0"; Auth.LogsOut; Auth.LogsIn alice "t"; Auth.Reloads]
    = Codec.Ok w
    /\ Auth.in_sync w
    /\ Auth.reload w = Codec.Ok w.
Proof.
  apply (session_survives_reload Auth.pairs pairs_lawful
           [Auth.LogsIn bob "t0"; Auth.LogsOut; Auth.LogsIn alice "t"; Auth.Reloads]).
Defined.

(** ** What a bubble shows of the text *)

Section BubbleFacts.
Import Codec.
Context {C : CryptoJS}.

Lemma decryptMessage_untagged (x : list N) :
  Js.startsWith ENC x = false -> decryptMessage x = x.
Proof.
  intros H. unfold decryptMessage, decryptMessage_try. rewrite H. reflexivity.
Qed.

End BubbleFacts.

(** X15: the bubble decodes the text once more.  The log of the receiver
    holds the decoded text and the bubble passes it through
    [decryptMessage] again.  For a typed text that has a UTF-8 encoding, is
    not empty and does not start with the tag, this changes nothing: the
    bubble of the arrival shows the typed text.  But a typed text that is
    itself the encoding of another text is shown as that other text. *)
Theorem bubble_decodes_again (C : Codec.CryptoJS) (L : Codec.lawful C)
    (salt : N) (typed wire : list N) (msg : Message.t) :
  Js.well_formed typed = true ->
  typed <> [] ->
  Codec.encryptMessage salt typed = Codec.Ok wire ->
  Message.text msg = wire ->
  (Js.startsWith Codec.ENC typed = false ->
   View.bubble_text (Tracker.entry msg) = typed)
  /\ (forall salt' hidden,
        Js.well_formed hidden = true ->
        hidden <> [] ->
        Codec.encryptMessage salt' hidden = Codec.Ok typed ->
        View.bubble_text (Tracker.entry msg) = hidden).
Proof.
  intros Hwf Hne He Hm.
  assert (Hdec : forall s x c, Js.well_formed x = true -> x <> [] ->
                               Codec.encryptMessage s x = Codec.Ok c ->
                               Codec.decryptMessage c = x).
  { intros s x c Hx Hn Hc.
    destruct (decrypt_encrypt_text C L s x Hx Hn) as (c' & Hc' & _ & Hd).
    congruence. }
  unfold View.bubble_text, Tracker.entry. simpl. rewrite Hm.
  rewrite (Hdec salt typed wire Hwf Hne He). split.
  - apply decryptMessage_untagged.
  - intros salt' hidden Hh Hn Hc. apply (Hdec salt' hidden typed Hh Hn Hc).
Qed.

Lemma bubble_decodes_again_witness :
  View.bubble_text (C := Codec.mirror)
    (Tracker.entry (C := Codec.mirror) (incoming "m9" bob "ENC:secret:CNE"))
  = Js.lit "secret".
Proof.
  refine (proj2 (bubble_decodes_again Codec.mirror mirror_lawful 0
                   (Js.lit "ENC:terces") (Js.lit "ENC:secret:CNE")
                   (incoming "m9" bob "ENC:secret:CNE") _ _ _ _)
                0 (Js.lit "secret") _ _ _);
    first [reflexivity | discriminate].
Defined.

(** ** A send that fails before the socket is looked at *)

(** X16: a message whose attachment cannot be uploaded, or whose text
    cannot be encoded, is not sent at all.  For a text that is not blank,
    when the upload of the selected file or the encoding throws,
    [sendMessage] throws the same error whether or not the socket is
    connected: nothing is emitted on the channel, no reconnection is
    started, and the log, the input field, the selected file and the
    suggestions are as before. *)
Theorem failed_upload_sends_nothing (C : Codec.CryptoJS) (P : Chat.Props)
    (env : Chat.SendEnv) (st : Chat.State) (messageText : list N) (e : string) :
  Js.blank messageText = false ->
  (Chat.upload_selected env st).2 = Codec.Throw e
  \/ (exists media, (Chat.upload_selected env st).2 = Codec.Ok media)
     /\ Codec.encryptMessage (Chat.salt env) messageText = Codec.Throw e ->
  Chat.sendMessage P env st messageText
  = (st, (Chat.upload_selected env st).1, Codec.Throw e)
  /\ (forall m, Chat.EmitChatMessage m ∉ (Chat.upload_selected env st).1)
  /\ Chat.SocketConnect ∉ (Chat.upload_selected env st).1.
Proof.
  intros Hb Hfail.
  assert (Hup : forall x, x ∈ (Chat.upload_selected env st).1 ->
                          exists f, x = Chat.UploadMedia f).
  { unfold Chat.upload_selected. destruct (Chat.file st) as [f|]; simpl.
    - intros x Hx. apply list_elem_of_singleton in Hx. eauto.
    - intros x Hx. inversion Hx. }
  split; [|split].
  - unfold Chat.sendMessage. rewrite truthy_trim, Hb. simpl negb. cbv iota.
    destruct (Chat.upload_selected env st) as [fx r]. simpl in *.
    destruct Hfail as [->|[[[mediaUrl mediaType] ->] ->]]; reflexivity.
  - intros m Hm. apply Hup in Hm as [f Hf]. discriminate.
  - intros Hm. apply Hup in Hm as [f Hf]. discriminate.
Qed.

Lemma failed_upload_sends_nothing_witness :
  Chat.sendMessage (C := Codec.mirror) room1 online_upload_refused with_photo (Js.lit "hi")
  = (with_photo, [Chat.UploadMedia photo], Codec.Throw "Failed to upload media to S3").
Proof.
  refine (proj1 (failed_upload_sends_nothing Codec.mirror room1 online_upload_refused
                   with_photo (Js.lit "hi") "Failed to upload media to S3" _ _)).
  - reflexivity.
  - left. reflexivity.
Defined.
